(** * Cache-aside key-value server: the bounded cache and its coordinator

    A shallow embedding of the Go server ([Cache], [Server] and the three
    request handlers) and the properties of the cache-aside protocol.

    - Go [string] and [[]byte] are sequences of bytes: [string].
    - [map[string]string] is a finite map: [gmap string string].
    - [int] and [int64] are [Z]; the wrap-around of the atomic 64-bit
      additions is written out ([wrap64]).
    - [for k := range c.items { delete(c.items, k); break }] removes the
      first key the runtime happens to enumerate.  The Go runtime starts a
      map iteration at a random position, so the victim is a function of
      the map and of a number drawn by the runtime; that number is an
      explicit argument ([seed]) of [Cache_Set].
    - The mutex operations are not represented: every method body runs
      as one atomic step. *)

From Stdlib Require Import ZArith Lia Ascii.
From stdpp Require Import gmap strings list fin_maps.

Local Open Scope Z_scope.

(** ** Machine integers *)

Definition int64_min : Z := - 2 ^ 63.
Definition int64_max : Z := 2 ^ 63 - 1.

(** Two's complement reduction of a mathematical integer to [int64]. *)
Definition wrap64 (z : Z) : Z := (z + 2 ^ 63) mod 2 ^ 64 - 2 ^ 63.

(** [atomic.AddInt64(&x, delta)] : the new contents of [x]. *)
Definition AddInt64 (x delta : Z) : Z := wrap64 (x + delta).

(** ** The cache *)

(** [type Cache struct { mu; items; maxSize; hits; misses }] *)
Record Cache : Type := mkCache {
  items : gmap string string;
  maxSize : Z;
  hits : Z;
  misses : Z
}.

(** [len(c.items)] *)
Definition len (c : Cache) : Z := Z.of_nat (size (items c)).

(** [NewCache(maxSize)] *)
Definition NewCache (maxSize : Z) : Cache :=
  {| items := ∅; maxSize := maxSize; hits := 0; misses := 0 |}.

(** [c.Get(key)]: the pair returned and the cache afterwards. *)
Definition Cache_Get (c : Cache) (key : string) : (string * bool) * Cache :=
  match items c !! key with
  | Some val =>
      ((val, true),
       {| items := items c; maxSize := maxSize c;
          hits := AddInt64 (hits c) 1; misses := misses c |})
  | None =>
      ((EmptyString, false),
       {| items := items c; maxSize := maxSize c;
          hits := hits c; misses := AddInt64 (misses c) 1 |})
  end.

(** The key reached first by [for k := range m] when the runtime's
    iteration starts at offset [seed]; [None] on the empty map, where the
    loop body does not run. *)
Definition range_first (seed : nat) (m : gmap string string) : option string :=
  match map_to_list m with
  | [] => None
  | l => fst <$> l !! (seed mod length l)%nat
  end.

(** The loop [for k := range c.items { delete(c.items, k); break }]. *)
Definition evict_one (seed : nat) (m : gmap string string) : gmap string string :=
  match range_first seed m with
  | Some k => delete k m
  | None => m
  end.

(** [c.Set(key, value)] *)
Definition Cache_Set (seed : nat) (c : Cache) (key value : string) : Cache :=
  let items1 :=
    if bool_decide (maxSize c ≤ len c) then evict_one seed (items c)
    else items c in
  {| items := <[key := value]> items1; maxSize := maxSize c;
     hits := hits c; misses := misses c |}.

(** [c.Delete(key)] *)
Definition Cache_Delete (c : Cache) (key : string) : Cache :=
  {| items := delete key (items c); maxSize := maxSize c;
     hits := hits c; misses := misses c |}.

(** A call of one of the three cache methods; [CallSet] carries the
    iteration offset the runtime uses should the eviction loop run. *)
Inductive CacheCall : Type :=
  | CallGet (key : string)
  | CallSet (seed : nat) (key value : string)
  | CallDelete (key : string).

Definition call (c : Cache) (o : CacheCall) : Cache :=
  match o with
  | CallGet key => (Cache_Get c key).2
  | CallSet seed key value => Cache_Set seed c key value
  | CallDelete key => Cache_Delete c key
  end.

(** The cache after a sequence of calls, oldest first. *)
Definition calls (c : Cache) (l : list CacheCall) : Cache := foldl call c l.

Definition is_get (o : CacheCall) : bool :=
  match o with CallGet _ => true | _ => false end.

(** Number of completed [Get] lookups in a sequence of calls. *)
Definition gets (l : list CacheCall) : Z :=
  Z.of_nat (length (List.filter is_get l)).

(** ** The store collaborator *)

(** Outcome of [db.QueryRow(...).Scan(&valueFromDB)]: [err == nil] with
    the scanned value, [err == sql.ErrNoRows], or any other error. *)
Inductive ScanResult : Type :=
  | ScanOk (value : string)
  | ErrNoRows
  | ScanErr.

(** Outcome of [db.Exec(...)]: [err == nil] or not. *)
Inductive ExecResult : Type :=
  | ExecOk
  | ExecErr.

(** Modelled from the spec: the durable store behind [*sql.DB] (the table
    [kv_store (key TEXT PRIMARY KEY, value TEXT)] of an external database)
    is not part of the sources.  It is a key-value service with [get],
    upsert [put] and [delete], each of which may fail.  [rows] is the
    table; [outages] tells, for the calls still to come, which of them
    fail ([true]); a failing call leaves the table as it is and calls
    beyond the end of the list succeed. *)
Record DB : Type := mkDB {
  rows : gmap string string;
  outages : list bool
}.

Definition next_call (d : DB) : bool * list bool :=
  match outages d with
  | [] => (false, [])
  | f :: fs => (f, fs)
  end.

(** [SELECT value FROM kv_store WHERE key = $1], scanned into a string. *)
Definition QueryRow (d : DB) (key : string) : ScanResult * DB :=
  let '(fails, rest) := next_call d in
  let d' := {| rows := rows d; outages := rest |} in
  if fails then (ScanErr, d')
  else match rows d !! key with
       | Some v => (ScanOk v, d')
       | None => (ErrNoRows, d')
       end.

(** [INSERT INTO kv_store (key, value) VALUES ($1, $2)
     ON CONFLICT (key) DO UPDATE SET value = $2] *)
Definition ExecUpsert (d : DB) (key value : string) : ExecResult * DB :=
  let '(fails, rest) := next_call d in
  if fails then (ExecErr, {| rows := rows d; outages := rest |})
  else (ExecOk, {| rows := <[key := value]> (rows d); outages := rest |}).

(** [DELETE FROM kv_store WHERE key = $1] *)
Definition ExecDelete (d : DB) (key : string) : ExecResult * DB :=
  let '(fails, rest) := next_call d in
  if fails then (ExecErr, {| rows := rows d; outages := rest |})
  else (ExecOk, {| rows := delete key (rows d); outages := rest |}).

(** ** The server *)

(** [type Server struct { db; cache }] *)
Record Server : Type := mkServer {
  db : DB;
  cache : Cache
}.

(** What a handler does to its collaborators, in program order. *)
Inductive Event : Type :=
  | EvCacheGet (key : string)
  | EvCacheSet (key value : string)
  | EvCacheDelete (key : string)
  | EvQuery (key : string)
  | EvUpsert (key value : string)
  | EvDelete (key : string).

Definition is_store_event (e : Event) : bool :=
  match e with
  | EvQuery _ | EvUpsert _ _ | EvDelete _ => true
  | _ => false
  end.

Definition is_cache_mutation (e : Event) : bool :=
  match e with
  | EvCacheSet _ _ | EvCacheDelete _ => true
  | _ => false
  end.

(** A handler step: from the server state to a result, the state
    afterwards and the events of the step. *)
Definition M (A : Type) : Type := Server → A * Server * list Event.

#[global] Instance M_ret : MRet M := λ A a s, (a, s, []).

#[global] Instance M_bind : MBind M := λ A B f m s,
  let '(a, s1, e1) := m s in
  let '(b, s2, e2) := f a s1 in
  (b, s2, e1 ++ e2).

(** [s.cache.Get(key)] *)
Definition cacheGet (key : string) : M (string * bool) := λ s,
  let '(r, c') := Cache_Get (cache s) key in
  (r, {| db := db s; cache := c' |}, [EvCacheGet key]).

(** [s.cache.Set(key, value)] *)
Definition cacheSet (seed : nat) (key value : string) : M unit := λ s,
  (tt, {| db := db s; cache := Cache_Set seed (cache s) key value |},
   [EvCacheSet key value]).

(** [s.cache.Delete(key)] *)
Definition cacheDelete (key : string) : M unit := λ s,
  (tt, {| db := db s; cache := Cache_Delete (cache s) key |},
   [EvCacheDelete key]).

Definition dbQueryRow (key : string) : M ScanResult := λ s,
  let '(r, d') := QueryRow (db s) key in
  (r, {| db := d'; cache := cache s |}, [EvQuery key]).

Definition dbExecUpsert (key value : string) : M ExecResult := λ s,
  let '(r, d') := ExecUpsert (db s) key value in
  (r, {| db := d'; cache := cache s |}, [EvUpsert key value]).

Definition dbExecDelete (key : string) : M ExecResult := λ s,
  let '(r, d') := ExecDelete (db s) key in
  (r, {| db := d'; cache := cache s |}, [EvDelete key]).

(** ** Requests and responses *)

Definition StatusOK : Z := 200.
Definition StatusBadRequest : Z := 400.
Definition StatusNotFound : Z := 404.
Definition StatusMethodNotAllowed : Z := 405.
Definition StatusInternalServerError : Z := 500.

(** What the handler hands to its [http.ResponseWriter]. *)
Record Response : Type := mkResponse {
  status : Z;
  body : string
}.

(** [w.Write([]byte(val))] on a fresh writer: status 200 and the bytes. *)
Definition Write (val : string) : Response :=
  {| status := StatusOK; body := val |}.

(** [w.WriteHeader(code)] with nothing written. *)
Definition WriteHeader (code : Z) : Response :=
  {| status := code; body := EmptyString |}.

(** [http.Error(w, msg, code)]: the message followed by a newline. *)
Definition Error (msg : string) (code : Z) : Response :=
  {| status := code; body := msg +:+ String "010"%char EmptyString |}.

(** The first [n] bytes of [s], all of [s] when it is shorter. *)
Fixpoint take_bytes (n : Z) (s : string) : string :=
  match s with
  | EmptyString => EmptyString
  | String a s' =>
      if bool_decide (0 < n) then String a (take_bytes (n - 1) s')
      else EmptyString
  end.

(** [s] without its first [n] bytes. *)
Fixpoint drop_bytes (n : Z) (s : string) : string :=
  match s with
  | EmptyString => EmptyString
  | String a s' => if bool_decide (0 < n) then drop_bytes (n - 1) s' else s
  end.

(** How a body ends once its data is consumed: [io.EOF], or another
    error (for instance a connection closed before the declared length). *)
Inductive ReadEnd : Type :=
  | EOF
  | ErrUnexpected.

(** [r.Body], an [io.Reader]: the payload as the transport will deliver
    it, piece by piece, and the way the stream ends. *)
Record BodyReader : Type := mkBody {
  chunks : list string;
  ending : ReadEnd
}.

(** The payload the client sent. *)
Definition payload (b : BodyReader) : string :=
  foldr String.append EmptyString (chunks b).

(** [n, err := b.Read(p)] with [len(p) = cap]: the bytes stored in
    [p[:n]], the error, and the reader afterwards.  One call delivers at
    most one piece, cut to the buffer. *)
Definition Body_Read (b : BodyReader) (cap : Z)
  : (string * option ReadEnd) * BodyReader :=
  match chunks b with
  | [] => ((EmptyString, Some (ending b)), b)
  | piece :: rest =>
      let left := drop_bytes cap piece in
      ((take_bytes cap piece, None),
       {| chunks := match left with
                    | EmptyString => rest
                    | _ => left :: rest
                    end;
          ending := ending b |})
  end.

(** [*http.Request], as far as the handlers look at it. *)
Record Request : Type := mkRequest {
  Method : string;
  Path : string;
  Body : BodyReader
}.

Fixpoint strip_prefix (prefix s : string) : option string :=
  match prefix with
  | EmptyString => Some s
  | String a prefix' =>
      match s with
      | EmptyString => None
      | String b s' =>
          if bool_decide (a = b) then strip_prefix prefix' s' else None
      end
  end.

(** [strings.TrimPrefix(s, prefix)] *)
Definition TrimPrefix (s prefix : string) : string :=
  default s (strip_prefix prefix s).

(** ** The handlers *)

(** [s.handleGet(w, r, key)] *)
Definition handleGet (seed : nat) (key : string) : M Response :=
  '(val, ok) ← cacheGet key;
  if ok : bool then mret (Write val)
  else
    res ← dbQueryRow key;
    match res with
    | ErrNoRows => mret (Error "Key not found" StatusNotFound)
    | ScanErr => mret (Error "Database error" StatusInternalServerError)
    | ScanOk valueFromDB =>
        _ ← cacheSet seed key valueFromDB;
        mret (Write valueFromDB)
    end.

(** The length of the buffer [make([]byte, 1024*1024)]. *)
Definition bufLen : Z := 1024 * 1024.

(** [n, _ := r.Body.Read(body); value := string(body[:n])] *)
Definition readValue (r : Request) : string :=
  (Body_Read (Body r) bufLen).1.1.

(** [s.handlePut(w, r, key)] *)
Definition handlePut (seed : nat) (r : Request) (key : string) : M Response :=
  let value := readValue r in
  res ← dbExecUpsert key value;
  match res with
  | ExecErr => mret (Error "Database error" StatusInternalServerError)
  | ExecOk =>
      _ ← cacheSet seed key value;
      mret (WriteHeader StatusOK)
  end.

(** [s.handleDelete(w, r, key)] *)
Definition handleDelete (key : string) : M Response :=
  res ← dbExecDelete key;
  match res with
  | ExecErr => mret (Error "Database error" StatusInternalServerError)
  | ExecOk =>
      _ ← cacheDelete key;
      mret (WriteHeader StatusOK)
  end.

(** [s.kvHandler(w, r)] *)
Definition kvHandler (seed : nat) (r : Request) : M Response :=
  let key := TrimPrefix (Path r) "/kv/" in
  if bool_decide (key = EmptyString)
  then mret (Error "Key is missing" StatusBadRequest)
  else if bool_decide (Method r = "GET") then handleGet seed key
  else if bool_decide (Method r = "PUT") then handlePut seed r key
  else if bool_decide (Method r = "DELETE") then handleDelete key
  else mret (Error "Method not allowed" StatusMethodNotAllowed).

(** The server after a sequence of requests, handled one after the
    other; each comes with the runtime's iteration offset for that call. *)
Definition serve (s : Server) (reqs : list (nat * Request)) : Server :=
  foldl (λ s' '(seed, r), (kvHandler seed r s').1.2) s reqs.

(** The parts of a handler's outcome. *)
Definition response {A : Type} (o : A * Server * list Event) : A := o.1.1.
Definition server {A : Type} (o : A * Server * list Event) : Server := o.1.2.
Definition events {A : Type} (o : A * Server * list Event) : list Event := o.2.

(** The store calls among the events of a handler. *)
Definition store_calls (evs : list Event) : list Event :=
  List.filter is_store_event evs.

(** The cache mutations among the events of a handler. *)
Definition cache_mutations (evs : list Event) : list Event :=
  List.filter is_cache_mutation evs.


(** ** The contracts as the specification words them *)



(** [set(key, value)] in the words of the specification, as a relation
    between the cache before the call and the entries after it: at
    maximum capacity with [key] not resident, exactly one resident entry
    is evicted before the insertion; otherwise the entry for [key] is
    inserted or overwritten and nothing is evicted. *)
Definition Set_as_specified (c : Cache) (key value : string)
    (after : gmap string string) : Prop :=
  (maxSize c ≤ len c ∧ items c !! key = None →
     ∃ victim, is_Some (items c !! victim) ∧
       after = <[key := value]> (delete victim (items c)))
  ∧ (¬ (maxSize c ≤ len c ∧ items c !! key = None) →
     after = <[key := value]> (items c)).

(** The capacity bound in the words of the specification: after the
    calls [l] on a new cache of capacity [maxSize], the number of
    resident entries does not exceed [maxSize]. *)
Definition capacity_respected (maxSize : Z) (l : list CacheCall) : Prop :=
  len (calls (NewCache maxSize) l) ≤ maxSize.

(** The store holds [v] for [k], and the cache holds the same or nothing. *)
Definition holds (k v : string) (s : Server) : Prop :=
  rows (db s) !! k = Some v
  ∧ (items (cache s) !! k = None ∨ items (cache s) !! k = Some v).

(** What the key [k] maps to after the calls [l] when nothing is ever
    evicted: the value of the last [Set] on [k], unless a [Delete] of [k]
    came after it; [st] is what it maps to before the calls. *)
Definition latest_from (k : string) (st : option string) (l : list CacheCall)
  : option string :=
  foldl (λ st o,
           match o with
           | CallSet _ key value => if bool_decide (key = k) then Some value else st
           | CallDelete key => if bool_decide (key = k) then None else st
           | CallGet _ => st
           end) st l.

Definition latest (k : string) (l : list CacheCall) : option string :=
  latest_from k None l.

(** Every cached entry is the entry of the table. *)
Definition coherent (s : Server) : Prop :=
  ∀ k v, items (cache s) !! k = Some v → rows (db s) !! k = Some v.

(** Neither the table nor the cache has the key. *)
Definition unknown (k : string) (s : Server) : Prop :=
  rows (db s) !! k = None ∧ items (cache s) !! k = None.

(** Whether [kvHandler] treats [r] as a write of key [k]. *)
Definition puts (k : string) (r : Request) : bool :=
  bool_decide (TrimPrefix (Path r) "/kv/" = k)
  && bool_decide (Method r = "PUT").

(** Whether [kvHandler] passes [r] to [handleGet]. *)
Definition is_read (r : Request) : bool :=
  negb (bool_decide (TrimPrefix (Path r) "/kv/" = EmptyString))
  && bool_decide (Method r = "GET").

(** Number of requests of a sequence that [kvHandler] passes to
    [handleGet]. *)
Definition reads (reqs : list (nat * Request)) : Z :=
  Z.of_nat (length (List.filter (λ sr, is_read sr.2) reqs)).

(** ** The load generator *)

(** [type Result struct { responseTime time.Duration; isError bool }]; a
    [time.Duration] is an [int64] number of nanoseconds. *)
Record Result : Type := mkResult {
  responseTime : Z;
  isError : bool
}.

(** The three totals [main] of the load generator keeps. *)
Record Totals : Type := mkTotals {
  totalRequests : Z;
  totalErrors : Z;
  totalResponseTime : Z
}.

(** One round of [for res := range resultsChan]:
    [totalRequests++; totalResponseTime += res.responseTime;
     if res.isError { totalErrors++ }]. *)
Definition tally (t : Totals) (res : Result) : Totals :=
  {| totalRequests := wrap64 (totalRequests t + 1);
     totalErrors :=
       if isError res then wrap64 (totalErrors t + 1) else totalErrors t;
     totalResponseTime := wrap64 (totalResponseTime t + responseTime res) |}.

(** The totals once the channel is closed, for the results in the order
    they were received. *)
Definition collect (results : list Result) : Totals :=
  foldl tally {| totalRequests := 0; totalErrors := 0; totalResponseTime := 0 |}
    results.

(** [successfulRequests := totalRequests - totalErrors] *)
Definition successfulRequests (t : Totals) : Z :=
  wrap64 (totalRequests t - totalErrors t).

(** [avgResponseTimeMs]: zero unless [totalRequests > 0], and then
    [(totalResponseTime / time.Duration(totalRequests)).Milliseconds()].
    Both divisions are Go's integer division, which truncates; with a
    positive divisor they cannot overflow. *)
Definition avgResponseTimeMs (t : Totals) : Z :=
  if bool_decide (0 < totalRequests t)
  then (totalResponseTime t ÷ totalRequests t) ÷ 1000000
  else 0.

(** Number of results flagged as errors. *)
Definition errors (results : list Result) : Z :=
  Z.of_nat (length (List.filter isError results)).

(** ** Sample states *)

(** A cache of capacity two holding [a] and [b]. *)
Definition cache_ab : Cache :=
  calls (NewCache 2) [CallSet 0 "a" "1"; CallSet 0 "b" "2"].

(** A body delivered in one piece and ended by [io.EOF]. *)
Definition bodyOf (value : string) : BodyReader :=
  {| chunks := [value]; ending := EOF |}.

Definition GET (key : string) : Request :=
  {| Method := "GET"; Path := "/kv/" +:+ key; Body := bodyOf "" |}.

Definition PUT (key value : string) : Request :=
  {| Method := "PUT"; Path := "/kv/" +:+ key; Body := bodyOf value |}.

Definition DELETE (key : string) : Request :=
  {| Method := "DELETE"; Path := "/kv/" +:+ key; Body := bodyOf "" |}.

(** A server with an empty table, an empty cache of the given capacity
    and the given outages ahead. *)
Definition fresh (capacity : Z) (outages : list bool) : Server :=
  {| db := {| rows := ∅; outages := outages |}; cache := NewCache capacity |}.

(** A server of capacity one that has stored [a] and [b] and, [a] having
    been evicted by the write of [b], caches only [b]. *)
Definition server_b (outages : list bool) : Server :=
  serve (fresh 1 (false :: false :: outages))
    [(0%nat, PUT "a" "1"); (0%nat, PUT "b" "2")].

(** A server of capacity two that has stored and cached [a] and [b]. *)
Definition server_ab (outages : list bool) : Server :=
  serve (fresh 2 (false :: false :: outages))
    [(0%nat, PUT "a" "1"); (0%nat, PUT "b" "2")].

(** * Properties of the cache *)

Section eviction.
Implicit Types (m : gmap string string) (seed : nat) (k : string).

Lemma range_first_resident seed m k :
  range_first seed m = Some k → is_Some (m !! k).
Proof.
  unfold range_first.
  destruct (map_to_list m) as [|kv l] eqn:E; [done|].
  rewrite <- E. intros H.
  destruct (map_to_list m !! (seed mod length (map_to_list m))%nat)
    as [[k' v]|] eqn:L; simplify_eq/=.
  exists v. apply elem_of_map_to_list. eapply list_elem_of_lookup_2, L.
Qed.

Lemma range_first_empty seed m : range_first seed m = None ↔ m = ∅.
Proof.
  unfold range_first. split.
  - destruct (map_to_list m) as [|kv l] eqn:E.
    + intros _. by apply map_to_list_empty_iff.
    + rewrite <- E. intros H.
      assert (seed mod length (map_to_list m) < length (map_to_list m))%nat
        as Hlt by (apply Nat.mod_upper_bound; rewrite E; done).
      apply lookup_lt_is_Some_2 in Hlt as [x Hx].
      by rewrite Hx in H.
  - intros ->. by rewrite map_to_list_empty.
Qed.

(** Every resident key is the victim for some iteration offset: the
    model leaves the choice as open as the runtime does. *)
Lemma range_first_any m k :
  is_Some (m !! k) → ∃ seed, range_first seed m = Some k.
Proof.
  intros [v Hv]. apply elem_of_map_to_list in Hv.
  apply list_elem_of_lookup_1 in Hv as [i Hi].
  exists i. unfold range_first.
  destruct (map_to_list m) as [|kv l] eqn:E; [done|].
  rewrite <- E in *.
  rewrite Nat.mod_small by (by eapply lookup_lt_Some).
  by rewrite Hi.
Qed.

Lemma evict_one_empty seed : evict_one seed ∅ = ∅.
Proof.
  unfold evict_one.
  by rewrite (proj2 (range_first_empty seed ∅) eq_refl).
Qed.

Lemma evict_one_nonempty seed m :
  m ≠ ∅ →
  ∃ victim old, m !! victim = Some old ∧ evict_one seed m = delete victim m.
Proof.
  intros Hne. unfold evict_one.
  destruct (range_first seed m) as [k|] eqn:E.
  - destruct (range_first_resident _ _ _ E) as [v Hv]. eauto.
  - by apply range_first_empty in E.
Qed.

Lemma evict_one_size seed m :
  m ≠ ∅ → S (size (evict_one seed m)) = size m.
Proof.
  intros Hne.
  destruct (evict_one_nonempty seed m Hne) as (k & v & Hk & ->).
  rewrite map_size_delete_Some by eauto.
  apply map_size_non_empty_iff in Hne. lia.
Qed.

Lemma evict_one_size_le seed m : (size (evict_one seed m) ≤ size m)%nat.
Proof.
  destruct (decide (m = ∅)) as [->|Hne].
  - by rewrite evict_one_empty.
  - pose proof (evict_one_size seed m Hne). lia.
Qed.

Lemma size_insert_le m k (v : string) : (size (<[k:=v]> m) ≤ S (size m))%nat.
Proof.
  destruct (m !! k) as [w|] eqn:E.
  - rewrite map_size_insert_Some by eauto. lia.
  - rewrite map_size_insert_None by done. lia.
Qed.
End eviction.

Section cache_calls.
Implicit Types (c : Cache) (key value : string) (seed : nat).

Lemma Cache_Set_maxSize seed c key value :
  maxSize (Cache_Set seed c key value) = maxSize c.
Proof. done. Qed.

Lemma Cache_Set_lookup seed c key value :
  items (Cache_Set seed c key value) !! key = Some value.
Proof. unfold Cache_Set; simpl. apply lookup_insert_eq. Qed.

Lemma Cache_Set_below seed c key value :
  len c < maxSize c →
  items (Cache_Set seed c key value) = <[key := value]> (items c).
Proof.
  intros H. unfold Cache_Set; simpl.
  by rewrite bool_decide_eq_false_2 by lia.
Qed.

Lemma Cache_Set_full seed c key value :
  maxSize c ≤ len c →
  items (Cache_Set seed c key value)
  = <[key := value]> (evict_one seed (items c)).
Proof.
  intros H. unfold Cache_Set; simpl.
  by rewrite bool_decide_eq_true_2 by lia.
Qed.

Lemma call_maxSize c o : maxSize (call c o) = maxSize c.
Proof. destruct o; simpl; [|done..]. unfold Cache_Get. by destruct (_ !! _). Qed.

Lemma calls_maxSize c l : maxSize (calls c l) = maxSize c.
Proof.
  revert c. induction l as [|o l IH]; intros c; [done|].
  unfold calls in *; simpl. by rewrite IH, call_maxSize.
Qed.

Lemma Cache_Get_items c key : items (Cache_Get c key).2 = items c.
Proof. unfold Cache_Get. by destruct (_ !! _). Qed.

(** One call keeps the resident count within [max maxSize 1]. *)
Lemma call_bound c o :
  len c ≤ Z.max (maxSize c) 1 → len (call c o) ≤ Z.max (maxSize c) 1.
Proof.
  unfold len. intros Hc. destruct o as [key|seed key value|key]; unfold call.
  - by rewrite Cache_Get_items.
  - destruct (decide (maxSize c ≤ len c)) as [Hfull|Hroom].
    + rewrite Cache_Set_full by done.
      pose proof (size_insert_le (evict_one seed (items c)) key value).
      destruct (decide (items c = ∅)) as [E|Hne].
      * rewrite E, evict_one_empty, map_size_empty in *. lia.
      * pose proof (evict_one_size seed _ Hne). lia.
    + rewrite Cache_Set_below by lia.
      pose proof (size_insert_le (items c) key value).
      unfold len in Hroom. lia.
  - unfold Cache_Delete; simpl.
    pose proof (map_size_delete key (items c)) as E.
    destruct (items c !! key); rewrite E; simpl; lia.
Qed.

Lemma calls_bound c l :
  len c ≤ Z.max (maxSize c) 1 → len (calls c l) ≤ Z.max (maxSize c) 1.
Proof.
  revert c. induction l as [|o l IH]; intros c Hc; [done|].
  unfold calls in *; simpl.
  rewrite <- (call_maxSize c o). apply IH.
  rewrite call_maxSize. by apply call_bound.
Qed.
End cache_calls.

(** C1 (as amended).  [Set] evicts exactly one resident entry, whichever
    the runtime enumerates first and whether or not [key] is resident,
    whenever the resident count has reached [maxSize] and the cache is
    not empty; it evicts nothing when the count is below [maxSize] or the
    cache is empty; in every case [key] maps to [value] afterwards. *)
Theorem Cache_Set_evicts_when_full (seed : nat) (c : Cache) (key value : string) :
  (maxSize c ≤ len c → items c ≠ ∅ →
     ∃ victim old,
       items c !! victim = Some old
       ∧ S (size (delete victim (items c))) = size (items c)
       ∧ items (Cache_Set seed c key value)
         = <[key := value]> (delete victim (items c)))
  ∧ (len c < maxSize c ∨ items c = ∅ →
     items (Cache_Set seed c key value) = <[key := value]> (items c))
  ∧ items (Cache_Set seed c key value) !! key = Some value.
Proof.
  split; [|split].
  - intros Hfull Hne.
    destruct (evict_one_nonempty seed (items c) Hne) as (k & v & Hk & E).
    exists k, v. split; [done|]. split.
    + rewrite <- E. by apply evict_one_size.
    + by rewrite Cache_Set_full, E.
  - intros [Hroom|Hempty].
    + by apply Cache_Set_below.
    + destruct (decide (maxSize c ≤ len c)).
      * by rewrite Cache_Set_full, Hempty, evict_one_empty.
      * apply Cache_Set_below. lia.
  - apply Cache_Set_lookup.
Qed.

Lemma Cache_Set_evicts_when_full_witness :
  ∃ victim old,
    items cache_ab !! victim = Some old
    ∧ S (size (delete victim (items cache_ab))) = size (items cache_ab)
    ∧ items (Cache_Set 1 cache_ab "a" "3")
      = <[ "a" := "3" ]> (delete victim (items cache_ab)).
Proof.
  apply (proj1 (Cache_Set_evicts_when_full 1 cache_ab "a" "3")).
  - by vm_compute.
  - intros H. apply (f_equal size) in H. by vm_compute in H.
Defined.

(** C1 (as stated) fails: overwriting the resident key [a] in a full
    cache evicts an entry; with the iteration starting at [b], the entry
    for [b] is lost. *)
Lemma Cache_Set_overwrite_evicts :
  items cache_ab !! "a" = Some "1"
  ∧ items cache_ab !! "b" = Some "2"
  ∧ items (Cache_Set 1 cache_ab "a" "3") !! "b" = None
  ∧ ¬ Set_as_specified cache_ab "a" "3" (items (Cache_Set 1 cache_ab "a" "3")).
Proof.
  split; [by vm_compute|]. split; [by vm_compute|]. split; [by vm_compute|].
  intros [_ H].
  assert (items (Cache_Set 1 cache_ab "a" "3") !! "b"
          = <[ "a" := "3" ]> (items cache_ab) !! "b") as E.
  { rewrite <- H; [done|]. intros [_ Hres]. by vm_compute in Hres. }
  by vm_compute in E.
Qed.

(** C2 (as amended).  With a capacity of at least one, the resident
    count after any sequence of [Set], [Get] and [Delete] calls on a new
    cache does not exceed [maxSize]. *)
Theorem calls_within_capacity (maxSize : Z) (l : list CacheCall) :
  1 ≤ maxSize → len (calls (NewCache maxSize) l) ≤ maxSize.
Proof.
  intros Hpos.
  pose proof (calls_bound (NewCache maxSize) l) as H.
  unfold len in *; simpl in H. rewrite map_size_empty in H. lia.
Qed.

Lemma calls_within_capacity_witness :
  len (calls (NewCache 2)
         [CallSet 0 "a" "1"; CallSet 1 "b" "2"; CallGet "a";
          CallSet 2 "c" "3"; CallDelete "b"; CallSet 0 "d" "4"]) ≤ 2.
Proof. apply calls_within_capacity. lia. Defined.

(** C2 (as stated) fails for a capacity of zero: the eviction loop finds
    nothing to remove in the empty map and the entry is inserted all the
    same. *)
Lemma capacity_zero_exceeded : ¬ capacity_respected 0 [CallSet 0 "a" "1"].
Proof. unfold capacity_respected. by vm_compute. Qed.

(** Linear arithmetic over the 64-bit bounds, with the powers of two
    written as numerals. *)
Ltac int64_lia :=
  unfold AddInt64, wrap64, int64_min, int64_max in *;
  change (2 ^ 63) with 9223372036854775808 in *;
  change (2 ^ 64) with 18446744073709551616 in *;
  Z.div_mod_to_equations; lia.

Section counters.
Implicit Types (c : Cache) (key value : string) (l : list CacheCall).

Lemma wrap64_small z : int64_min ≤ z ≤ int64_max → wrap64 z = z.
Proof. intros H. int64_lia. Qed.

Lemma wrap64_idemp a b : wrap64 (wrap64 a + b) = wrap64 (a + b).
Proof.
  unfold wrap64. f_equal.
  replace ((a + 2 ^ 63) mod 2 ^ 64 - 2 ^ 63 + b + 2 ^ 63)
    with ((a + 2 ^ 63) mod 2 ^ 64 + b) by lia.
  rewrite Zplus_mod_idemp_l. f_equal; lia.
Qed.

Lemma AddInt64_ne x : AddInt64 x 1 ≠ x.
Proof. int64_lia. Qed.

Lemma gets_cons o l : gets (o :: l) = (if is_get o then 1 else 0) + gets l.
Proof. unfold gets. simpl. destruct (is_get o); simpl; lia. Qed.

Lemma gets_nonneg l : 0 ≤ gets l.
Proof. unfold gets. lia. Qed.

Lemma call_counters c o :
  (is_get o = true →
     (hits (call c o) = AddInt64 (hits c) 1 ∧ misses (call c o) = misses c)
     ∨ (hits (call c o) = hits c ∧ misses (call c o) = AddInt64 (misses c) 1))
  ∧ (is_get o = false →
     hits (call c o) = hits c ∧ misses (call c o) = misses c).
Proof.
  destruct o; simpl; split; try done.
  intros _. unfold Cache_Get. destruct (_ !! _); simpl; auto.
Qed.

(** The counters, read as 64-bit integers, add up to the number of
    lookups. *)
Lemma calls_counters_wrap c l :
  wrap64 (hits (calls c l) + misses (calls c l))
  = wrap64 (hits c + misses c + gets l).
Proof.
  revert c. induction l as [|o l IH]; intros c.
  - unfold gets; simpl. f_equal; lia.
  - unfold calls in *; simpl. rewrite IH, gets_cons.
    destruct (call_counters c o) as [Hget Hother].
    destruct (is_get o).
    + destruct (Hget eq_refl) as [[-> ->]|[-> ->]]; unfold AddInt64.
      * replace (wrap64 (hits c + 1) + misses c + gets l)
          with (wrap64 (hits c + 1) + (misses c + gets l)) by lia.
        rewrite wrap64_idemp. f_equal; lia.
      * replace (hits c + wrap64 (misses c + 1) + gets l)
          with (wrap64 (misses c + 1) + (hits c + gets l)) by lia.
        rewrite wrap64_idemp. f_equal; lia.
    + destruct (Hother eq_refl) as [-> ->]. f_equal; lia.
Qed.

(** As long as the number of lookups fits [int64], no addition wraps. *)
Lemma calls_counters_exact c l :
  0 ≤ hits c → 0 ≤ misses c →
  hits c + misses c + gets l ≤ int64_max →
  0 ≤ hits (calls c l) ∧ 0 ≤ misses (calls c l)
  ∧ hits (calls c l) + misses (calls c l) = hits c + misses c + gets l.
Proof.
  revert c. induction l as [|o l IH]; intros c Hh Hm Hfit.
  - unfold gets; simpl. lia.
  - unfold calls in *; simpl. rewrite gets_cons in *.
    pose proof (gets_nonneg l).
    destruct (call_counters c o) as [Hget Hother].
    destruct (is_get o).
    + destruct (Hget eq_refl) as [[Eh Em]|[Eh Em]]; unfold AddInt64 in *.
      * rewrite wrap64_small in Eh by int64_lia.
        destruct (IH (call c o)) as (? & ? & ?); lia.
      * rewrite wrap64_small in Em by int64_lia.
        destruct (IH (call c o)) as (? & ? & ?); lia.
    + destruct (Hother eq_refl) as [Eh Em].
      destruct (IH (call c o)) as (? & ? & ?); lia.
Qed.
End counters.

(** C3.  After any sequence of calls on a new cache, the hit and miss
    counters add up to the number of [Get] lookups: as 64-bit integers
    without condition, and as plain integers whenever that number fits
    [int64].  A further [Get] then adds one to the hit counter and leaves
    the miss counter alone when the key is resident, and the other way
    round when it is not. *)
Theorem hits_plus_misses (maxSize : Z) (l : list CacheCall) (key : string) :
  let c := calls (NewCache maxSize) l in
  let c' := (Cache_Get c key).2 in
  wrap64 (hits c + misses c) = wrap64 (gets l)
  ∧ (gets l ≤ int64_max → hits c + misses c = gets l)
  ∧ (gets l < int64_max →
       (is_Some (items c !! key) →
          hits c' = hits c + 1 ∧ misses c' = misses c)
       ∧ (items c !! key = None →
          hits c' = hits c ∧ misses c' = misses c + 1)
       ∧ hits c' + misses c' = gets (l ++ [CallGet key])).
Proof.
  intros c c'. split; [|split].
  - subst c. by rewrite calls_counters_wrap.
  - intros Hfit.
    destruct (calls_counters_exact (NewCache maxSize) l) as (_ & _ & E);
      simpl; try lia.
    exact E.
  - intros Hfit.
    destruct (calls_counters_exact (NewCache maxSize) l) as (Hh & Hm & E);
      simpl; try int64_lia.
    fold c in Hh, Hm, E. simpl in E.
    assert (gets (l ++ [CallGet key]) = gets l + 1) as Hg.
    { unfold gets. rewrite List.filter_app, length_app. simpl. lia. }
    assert (AddInt64 (hits c) 1 = hits c + 1) as Eh
      by (unfold AddInt64; apply wrap64_small; int64_lia).
    assert (AddInt64 (misses c) 1 = misses c + 1) as Em
      by (unfold AddInt64; apply wrap64_small; int64_lia).
    subst c'. unfold Cache_Get.
    destruct (items c !! key) as [v|]; simpl; rewrite ?Eh, ?Em, Hg.
    + split; [done|]. split; [done|lia].
    + split; [by intros [? ?]|]. split; [done|lia].
Qed.

Lemma hits_plus_misses_witness :
  let c := calls (NewCache 2) [CallSet 0 "a" "1"; CallGet "a"; CallGet "b"] in
  hits c + misses c = 2
  ∧ hits (Cache_Get c "a").2 = hits c + 1
  ∧ misses (Cache_Get c "a").2 = misses c.
Proof.
  intros c.
  pose proof (hits_plus_misses 2
                [CallSet 0 "a" "1"; CallGet "a"; CallGet "b"] "a")
    as (_ & Hsum & Hstep).
  split.
  - apply Hsum. by vm_compute.
  - apply Hstep.
    + by vm_compute.
    + exists "1". by vm_compute.
Defined.

(** C9.  [Set] and [Delete] leave both counters as they were; [Get]
    changes one of them. *)
Theorem Set_Delete_keep_counters (seed : nat) (c : Cache) (key value : string) :
  hits (Cache_Set seed c key value) = hits c
  ∧ misses (Cache_Set seed c key value) = misses c
  ∧ hits (Cache_Delete c key) = hits c
  ∧ misses (Cache_Delete c key) = misses c
  ∧ (hits (Cache_Get c key).2 ≠ hits c ∨ misses (Cache_Get c key).2 ≠ misses c).
Proof.
  repeat split.
  unfold Cache_Get. destruct (items c !! key); simpl.
  - left. apply AddInt64_ne.
  - right. apply AddInt64_ne.
Qed.

(** C10.  [Get] on a key that is not resident returns the empty string
    and [false]. *)
Theorem Cache_Get_absent (c : Cache) (key : string) :
  items c !! key = None → (Cache_Get c key).1 = (EmptyString, false).
Proof. intros H. unfold Cache_Get. by rewrite H. Qed.

Lemma Cache_Get_absent_witness :
  (Cache_Get cache_ab "zzz").1 = (EmptyString, false).
Proof. apply Cache_Get_absent. by vm_compute. Defined.

(** * Properties of the coordinator *)

(** Unfold a handler down to the cache and store operations. *)
Ltac run_handler :=
  unfold handleGet, handlePut, handleDelete, response, server, events,
    store_calls, cache_mutations,
    mbind, M_bind, mret, M_ret, cacheGet, cacheSet, cacheDelete,
    dbQueryRow, dbExecUpsert, dbExecDelete in *.

#[local] Arguments Cache_Set : simpl never.
#[local] Arguments Cache_Get : simpl never.
#[local] Arguments Cache_Delete : simpl never.
#[local] Arguments QueryRow : simpl never.
#[local] Arguments ExecUpsert : simpl never.
#[local] Arguments ExecDelete : simpl never.

Section handlers.
Implicit Types (s : Server) (key value : string) (seed : nat) (r : Request).

Lemma handleGet_hit seed key s val :
  items (cache s) !! key = Some val →
  handleGet seed key s
  = (Write val, {| db := db s; cache := (Cache_Get (cache s) key).2 |},
     [EvCacheGet key]).
Proof. intros H. run_handler. unfold Cache_Get. by rewrite H. Qed.

Lemma handleGet_miss seed key s :
  items (cache s) !! key = None →
  handleGet seed key s
  = let c1 := (Cache_Get (cache s) key).2 in
    let d1 := (QueryRow (db s) key).2 in
    match (QueryRow (db s) key).1 with
    | ScanOk v =>
        (Write v, {| db := d1; cache := Cache_Set seed c1 key v |},
         [EvCacheGet key; EvQuery key; EvCacheSet key v])
    | ErrNoRows =>
        (Error "Key not found" StatusNotFound, {| db := d1; cache := c1 |},
         [EvCacheGet key; EvQuery key])
    | ScanErr =>
        (Error "Database error" StatusInternalServerError,
         {| db := d1; cache := c1 |}, [EvCacheGet key; EvQuery key])
    end.
Proof.
  intros H. run_handler. unfold Cache_Get. rewrite H. simpl.
  by destruct (QueryRow (db s) key) as [[v| |] d1].
Qed.

Lemma handlePut_outcome seed r key s :
  handlePut seed r key s
  = let value := readValue r in
    let d1 := (ExecUpsert (db s) key value).2 in
    match (ExecUpsert (db s) key value).1 with
    | ExecOk =>
        (WriteHeader StatusOK,
         {| db := d1; cache := Cache_Set seed (cache s) key value |},
         [EvUpsert key value; EvCacheSet key value])
    | ExecErr =>
        (Error "Database error" StatusInternalServerError,
         {| db := d1; cache := cache s |}, [EvUpsert key value])
    end.
Proof.
  run_handler. simpl.
  by destruct (ExecUpsert (db s) key (readValue r)) as [[|] d1].
Qed.

Lemma handleDelete_outcome key s :
  handleDelete key s
  = let d1 := (ExecDelete (db s) key).2 in
    match (ExecDelete (db s) key).1 with
    | ExecOk =>
        (WriteHeader StatusOK,
         {| db := d1; cache := Cache_Delete (cache s) key |},
         [EvDelete key; EvCacheDelete key])
    | ExecErr =>
        (Error "Database error" StatusInternalServerError,
         {| db := d1; cache := cache s |}, [EvDelete key])
    end.
Proof.
  run_handler. simpl.
  by destruct (ExecDelete (db s) key) as [[|] d1].
Qed.
End handlers.

(** C4.  [handleGet] on a hit answers with status 200 and the cached
    value as body, and makes no store call.  On a miss it queries the
    store once; a value found is put into the cache with [Set] and
    returned with status 200; a key reported absent is answered with
    status 404 and a failed query with status 500, and in both cases the
    entries of the cache are what they were and no cache mutation is
    made. *)
Theorem handleGet_read_through (seed : nat) (key : string) (s : Server) :
  let o := handleGet seed key s in
  let c1 := (Cache_Get (cache s) key).2 in
  (∀ val, items (cache s) !! key = Some val →
     response o = {| status := 200; body := val |}
     ∧ store_calls (events o) = []
     ∧ db (server o) = db s
     ∧ items (cache (server o)) = items (cache s))
  ∧ (items (cache s) !! key = None →
     store_calls (events o) = [EvQuery key]
     ∧ (∀ v, (QueryRow (db s) key).1 = ScanOk v →
          response o = {| status := 200; body := v |}
          ∧ cache (server o) = Cache_Set seed c1 key v
          ∧ events o = [EvCacheGet key; EvQuery key; EvCacheSet key v])
     ∧ ((QueryRow (db s) key).1 = ErrNoRows →
          response o = {| status := 404; body := "Key not found
" |}
          ∧ items (cache (server o)) = items (cache s)
          ∧ cache_mutations (events o) = [])
     ∧ ((QueryRow (db s) key).1 = ScanErr →
          response o = {| status := 500; body := "Database error
" |}
          ∧ items (cache (server o)) = items (cache s)
          ∧ cache_mutations (events o) = [])).
Proof.
  intros o c1. split.
  - intros val H. subst o. rewrite (handleGet_hit _ _ _ _ H).
    unfold response, server, events, store_calls; simpl.
    by rewrite Cache_Get_items.
  - intros H. subst o c1. rewrite (handleGet_miss _ _ _ H). simpl.
    destruct (QueryRow (db s) key).1 as [v| |];
      unfold response, server, events, store_calls, cache_mutations; simpl;
      rewrite ?Cache_Get_items;
      (split; [done|]); (split; [intros v' Hv'|split; intros Hres]);
      simplify_eq; done.
Qed.

Lemma handleGet_read_through_witness :
  (response (handleGet 0 "a" (server_ab [])) = {| status := 200; body := "1" |}
   ∧ store_calls (events (handleGet 0 "a" (server_ab []))) = [])
  ∧ (response (handleGet 0 "a" (server_b [])) = {| status := 200; body := "1" |}
     ∧ cache (server (handleGet 0 "a" (server_b [])))
       = Cache_Set 0 (Cache_Get (cache (server_b [])) "a").2 "a" "1")
  ∧ (response (handleGet 0 "zzz" (server_ab [])) = {| status := 404; body := "Key not found
" |}
     ∧ items (cache (server (handleGet 0 "zzz" (server_ab []))))
       = items (cache (server_ab [])))
  ∧ (response (handleGet 0 "zzz" (server_ab [true])) = {| status := 500; body := "Database error
" |}
     ∧ items (cache (server (handleGet 0 "zzz" (server_ab [true]))))
       = items (cache (server_ab [true]))).
Proof.
  pose proof (handleGet_read_through 0 "a" (server_ab [])) as [Hhit _].
  pose proof (handleGet_read_through 0 "a" (server_b [])) as [_ Hfound].
  pose proof (handleGet_read_through 0 "zzz" (server_ab [])) as [_ Habsent].
  pose proof (handleGet_read_through 0 "zzz" (server_ab [true])) as [_ Hfails].
  destruct (Hhit "1" ltac:(by vm_compute)) as (H1 & H2 & _).
  destruct (Hfound ltac:(by vm_compute)) as (_ & Hf & _).
  destruct (Hf "1" ltac:(by vm_compute)) as (H3 & H4 & _).
  destruct (Habsent ltac:(by vm_compute)) as (_ & _ & Ha & _).
  destruct (Ha ltac:(by vm_compute)) as (H5 & H6 & _).
  destruct (Hfails ltac:(by vm_compute)) as (_ & _ & _ & He).
  destruct (He ltac:(by vm_compute)) as (H7 & H8 & _).
  repeat split; assumption.
Defined.

(** C5.  [handlePut] and [handleDelete] call the store first.  When the
    store call succeeds the cache mutation follows it ([Set],
    respectively [Delete]) and the answer has status 200; when it fails,
    the answer has status 500, nothing follows the store call and the
    cache is what it was. *)
Theorem store_before_cache (seed : nat) (r : Request) (key : string) (s : Server) :
  let value := readValue r in
  let put := handlePut seed r key s in
  let del := handleDelete key s in
  head (events put) = Some (EvUpsert key value)
  ∧ ((ExecUpsert (db s) key value).1 = ExecOk →
       response put = {| status := 200; body := "" |}
       ∧ events put = [EvUpsert key value; EvCacheSet key value]
       ∧ cache (server put) = Cache_Set seed (cache s) key value)
  ∧ ((ExecUpsert (db s) key value).1 = ExecErr →
       response put = {| status := 500; body := "Database error
" |}
       ∧ events put = [EvUpsert key value]
       ∧ cache (server put) = cache s)
  ∧ head (events del) = Some (EvDelete key)
  ∧ ((ExecDelete (db s) key).1 = ExecOk →
       response del = {| status := 200; body := "" |}
       ∧ events del = [EvDelete key; EvCacheDelete key]
       ∧ cache (server del) = Cache_Delete (cache s) key)
  ∧ ((ExecDelete (db s) key).1 = ExecErr →
       response del = {| status := 500; body := "Database error
" |}
       ∧ events del = [EvDelete key]
       ∧ cache (server del) = cache s).
Proof.
  intros value put del. subst put del value.
  rewrite handlePut_outcome, handleDelete_outcome. simpl.
  destruct (ExecUpsert (db s) key (readValue r)).1,
           (ExecDelete (db s) key).1;
    unfold response, server, events; simpl; repeat split; done.
Qed.

Lemma store_before_cache_witness :
  (response (handlePut 0 (PUT "c" "3") "c" (server_ab [true])) = {| status := 500; body := "Database error
" |}
   ∧ events (handlePut 0 (PUT "c" "3") "c" (server_ab [true]))
     = [EvUpsert "c" (readValue (PUT "c" "3"))]
   ∧ cache (server (handlePut 0 (PUT "c" "3") "c" (server_ab [true])))
     = cache (server_ab [true]))
  ∧ (response (handlePut 0 (PUT "c" "3") "c" (server_ab []))
     = {| status := 200; body := "" |}
     ∧ events (handlePut 0 (PUT "c" "3") "c" (server_ab []))
       = [EvUpsert "c" (readValue (PUT "c" "3"));
          EvCacheSet "c" (readValue (PUT "c" "3"))]
     ∧ cache (server (handlePut 0 (PUT "c" "3") "c" (server_ab [])))
       = Cache_Set 0 (cache (server_ab [])) "c" (readValue (PUT "c" "3")))
  ∧ (response (handleDelete "a" (server_ab [true])) = {| status := 500; body := "Database error
" |}
     ∧ events (handleDelete "a" (server_ab [true])) = [EvDelete "a"]
     ∧ cache (server (handleDelete "a" (server_ab [true])))
       = cache (server_ab [true]))
  ∧ (response (handleDelete "a" (server_ab []))
     = {| status := 200; body := "" |}
     ∧ events (handleDelete "a" (server_ab []))
       = [EvDelete "a"; EvCacheDelete "a"]
     ∧ cache (server (handleDelete "a" (server_ab [])))
       = Cache_Delete (cache (server_ab [])) "a").
Proof.
  pose proof (store_before_cache 0 (PUT "c" "3") "a" (server_ab [true]))
    as (_ & _ & _ & _ & _ & Hdel_fails).
  pose proof (store_before_cache 0 (PUT "c" "3") "a" (server_ab []))
    as (_ & _ & _ & _ & Hdel_ok & _).
  pose proof (store_before_cache 0 (PUT "c" "3") "c" (server_ab [true]))
    as (_ & _ & Hput_fails & _).
  pose proof (store_before_cache 0 (PUT "c" "3") "c" (server_ab []))
    as (_ & Hput_ok & _).
  split; [apply Hput_fails; by vm_compute|].
  split; [apply Hput_ok; by vm_compute|].
  split; [apply Hdel_fails; by vm_compute|].
  apply Hdel_ok; by vm_compute.
Defined.

Section read_your_write.
Implicit Types (s : Server) (d : DB) (k key v value : string) (seed : nat).

Lemma evict_one_lookup seed (m : gmap string string) k :
  evict_one seed m !! k = None ∨ evict_one seed m !! k = m !! k.
Proof.
  unfold evict_one. destruct (range_first seed m) as [victim|]; [|by right].
  destruct (decide (victim = k)) as [->|Hne].
  - left. apply lookup_delete_eq.
  - right. by apply lookup_delete_ne.
Qed.

Lemma Cache_Set_lookup_ne seed (c : Cache) key value k :
  key ≠ k →
  items (Cache_Set seed c key value) !! k = None
  ∨ items (Cache_Set seed c key value) !! k = items c !! k.
Proof.
  intros Hne. unfold Cache_Set; simpl. rewrite lookup_insert_ne by done.
  case_bool_decide; [apply evict_one_lookup | by right].
Qed.

Lemma QueryRow_rows d key : rows (QueryRow d key).2 = rows d.
Proof.
  unfold QueryRow. destruct (next_call d) as [[|] rest]; simpl; [done|].
  by destruct (rows d !! key).
Qed.


Lemma ExecUpsert_ok d key value :
  (ExecUpsert d key value).1 = ExecOk →
  rows (ExecUpsert d key value).2 !! key = Some value.
Proof.
  unfold ExecUpsert. destruct (next_call d) as [[|] rest]; simpl; [done|].
  intros _. apply lookup_insert_eq.
Qed.

Lemma ExecUpsert_rows_ne d key value k :
  key ≠ k → rows (ExecUpsert d key value).2 !! k = rows d !! k.
Proof.
  intros Hne. unfold ExecUpsert.
  destruct (next_call d) as [[|] rest]; simpl; [done|].
  by apply lookup_insert_ne.
Qed.


(** A successful write leaves the value in the store and in the cache. *)
Lemma handlePut_establishes seed (w : Request) k s :
  status (response (handlePut seed w k s)) = StatusOK →
  holds k (readValue w) (server (handlePut seed w k s))
  ∧ items (cache (server (handlePut seed w k s))) !! k = Some (readValue w).
Proof.
  rewrite handlePut_outcome. cbn zeta.
  destruct (ExecUpsert (db s) k (readValue w)).1 eqn:E;
    unfold response, server, holds; cbn; [|done].
  intros _.
  rewrite Cache_Set_lookup, ExecUpsert_ok by done. auto.
Qed.






End read_your_write.




Section payload.
Implicit Types (s : string) (n : Z) (r : Request).

Lemma take_bytes_length n s :
  Z.of_nat (String.length (take_bytes n s))
  = Z.min (Z.max n 0) (Z.of_nat (String.length s)).
Proof.
  revert n. induction s as [|a s IH]; intros n; simpl; [lia|].
  case_bool_decide; simpl; [|lia].
  rewrite Nat2Z.inj_succ, IH. lia.
Qed.

Lemma take_bytes_all n s :
  Z.of_nat (String.length s) ≤ n → take_bytes n s = s.
Proof.
  revert n. induction s as [|a s IH]; intros n Hn; simpl in *; [done|].
  rewrite bool_decide_eq_true_2 by lia. f_equal. apply IH. lia.
Qed.

Lemma append_length s1 s2 :
  String.length (s1 +:+ s2) = (String.length s1 + String.length s2)%nat.
Proof. induction s1 as [|a s1 IH]; simpl; [done|]. by rewrite IH. Qed.

(** One [Read]: the value is the first piece, cut to the buffer. *)
Lemma readValue_first_piece r piece rest :
  chunks (Body r) = piece :: rest → readValue r = take_bytes bufLen piece.
Proof. intros H. unfold readValue, Body_Read. by rewrite H. Qed.

(** The error of a failed [Read] is dropped: the value is empty. *)
Lemma readValue_read_error r :
  chunks (Body r) = [] → readValue r = EmptyString.
Proof. intros H. unfold readValue, Body_Read. by rewrite H. Qed.

(** A payload longer than the buffer is cut to [bufLen] bytes. *)
Lemma readValue_overflow r piece rest :
  chunks (Body r) = piece :: rest →
  bufLen < Z.of_nat (String.length piece) →
  Z.of_nat (String.length (readValue r)) = bufLen
  ∧ readValue r ≠ payload (Body r).
Proof.
  intros H Hlong. rewrite (readValue_first_piece _ _ _ H).
  pose proof (take_bytes_length bufLen piece) as L.
  assert (0 < bufLen) by done.
  split; [lia|]. intros E.
  apply (f_equal (λ x, Z.of_nat (String.length x))) in E.
  unfold payload in E. rewrite H in E. simpl in E.
  rewrite append_length in E. lia.
Qed.

(** Whatever the body, a write whose store call succeeds is answered
    with 200. *)
Lemma handlePut_never_rejects seed r key (s : Server) :
  (ExecUpsert (db s) key (readValue r)).1 = ExecOk →
  response (handlePut seed r key s) = WriteHeader StatusOK
  ∧ rows (db (server (handlePut seed r key s))) !! key = Some (readValue r).
Proof.
  intros H. rewrite handlePut_outcome. cbn zeta. rewrite H.
  unfold response, server; cbn. by rewrite ExecUpsert_ok.
Qed.
End payload.

(** C7, the behaviour of the code.  A payload [hello] that arrives in
    two pieces is stored as [hel], and a body whose read fails is stored
    as the empty value; both writes are answered with 200. *)
Theorem handlePut_stores_partial_payload :
  let partial :=
    {| Method := "PUT"; Path := "/kv/a";
       Body := {| chunks := ["hel"; "lo"]; ending := EOF |} |} in
  let broken :=
    {| Method := "PUT"; Path := "/kv/a";
       Body := {| chunks := []; ending := ErrUnexpected |} |} in
  payload (Body partial) = "hello"
  ∧ response (handlePut 0 partial "a" (fresh 1000 [])) = {| status := 200; body := "" |}
  ∧ rows (db (server (handlePut 0 partial "a" (fresh 1000 [])))) !! "a"
    = Some "hel"
  ∧ items (cache (server (handlePut 0 partial "a" (fresh 1000 [])))) !! "a"
    = Some "hel"
  ∧ (Body_Read (Body broken) bufLen).1.2 = Some ErrUnexpected
  ∧ response (handlePut 0 broken "a" (fresh 1000 [])) = {| status := 200; body := "" |}
  ∧ rows (db (server (handlePut 0 broken "a" (fresh 1000 [])))) !! "a"
    = Some EmptyString.
Proof. by vm_compute. Qed.


(** * Further properties of the cache *)

(** X1.  A [Get] that follows a [Set] of the same key returns the value
    set and [true], whatever the capacity and whichever entry the [Set]
    evicted. *)
Theorem Cache_Set_then_Get (seed : nat) (c : Cache) (key value : string) :
  (Cache_Get (Cache_Set seed c key value) key).1 = (value, true).
Proof. unfold Cache_Get. by rewrite Cache_Set_lookup. Qed.

(** X2.  After [Delete] the key is not found; every other key is found
    as before; deleting a key that is not resident changes nothing. *)
Theorem Cache_Delete_removes_only_key (c : Cache) (key : string) :
  (Cache_Get (Cache_Delete c key) key).1 = (EmptyString, false)
  ∧ (∀ k, k ≠ key → items (Cache_Delete c key) !! k = items c !! k)
  ∧ (items c !! key = None → Cache_Delete c key = c).
Proof.
  split; [|split].
  - unfold Cache_Get, Cache_Delete; simpl. by rewrite lookup_delete_eq.
  - intros k Hne. unfold Cache_Delete; simpl. by rewrite lookup_delete_ne.
  - intros H. unfold Cache_Delete. rewrite delete_id by done. by destruct c.
Qed.

Lemma Cache_Delete_removes_only_key_witness :
  items (Cache_Delete cache_ab "a") !! "b" = items cache_ab !! "b"
  ∧ Cache_Delete cache_ab "zzz" = cache_ab.
Proof.
  pose proof (Cache_Delete_removes_only_key cache_ab "a") as (_ & Hother & _).
  pose proof (Cache_Delete_removes_only_key cache_ab "zzz") as (_ & _ & Hid).
  split.
  - apply Hother. by vm_compute.
  - apply Hid. by vm_compute.
Defined.

(** X3.  While the resident count is below the capacity, [Set] leaves
    every other entry in place and the count stays within the capacity. *)
Theorem Cache_Set_below_capacity (seed : nat) (c : Cache) (key value k : string) :
  len c < maxSize c →
  k ≠ key →
  items (Cache_Set seed c key value) !! k = items c !! k
  ∧ len (Cache_Set seed c key value) ≤ maxSize c.
Proof.
  intros Hroom Hne. unfold len in *. rewrite Cache_Set_below by done. split.
  - by rewrite lookup_insert_ne.
  - pose proof (size_insert_le (items c) key value). lia.
Qed.

Lemma Cache_Set_below_capacity_witness :
  items (Cache_Set 0 (Cache_Set 0 (NewCache 2) "a" "1") "b" "2") !! "a"
  = items (Cache_Set 0 (NewCache 2) "a" "1") !! "a"
  ∧ len (Cache_Set 0 (Cache_Set 0 (NewCache 2) "a" "1") "b" "2")
    ≤ maxSize (Cache_Set 0 (NewCache 2) "a" "1").
Proof.
  apply (Cache_Set_below_capacity 0 (Cache_Set 0 (NewCache 2) "a" "1")
           "b" "2" "a"); by vm_compute.
Defined.

(** X4.  [Set] never changes the value of another key and never drops
    more than one other entry: an entry for another key found afterwards
    was there before with the same value, and two other keys that were
    resident and are gone afterwards are the same key. *)
Theorem Cache_Set_drops_at_most_one (seed : nat) (c : Cache) (key value : string) :
  (∀ k v, k ≠ key →
     items (Cache_Set seed c key value) !! k = Some v → items c !! k = Some v)
  ∧ (∀ k1 k2, k1 ≠ key → k2 ≠ key →
       is_Some (items c !! k1) → is_Some (items c !! k2) →
       items (Cache_Set seed c key value) !! k1 = None →
       items (Cache_Set seed c key value) !! k2 = None →
       k1 = k2).
Proof.
  assert (∀ k, k ≠ key →
            items (Cache_Set seed c key value) !! k
            = (if bool_decide (maxSize c ≤ len c)
               then evict_one seed (items c) else items c) !! k) as E.
  { intros k Hne. unfold Cache_Set; simpl. by rewrite lookup_insert_ne. }
  split.
  - intros k v Hne. rewrite E by done. case_bool_decide; [|done].
    destruct (evict_one_lookup seed (items c) k) as [-> | ->]; done.
  - intros k1 k2 H1 H2 [v1 R1] [v2 R2]. rewrite !E by done.
    case_bool_decide; [|congruence].
    unfold evict_one. destruct (range_first seed (items c)) as [victim|];
      [|congruence].
    intros D1 D2.
    destruct (decide (victim = k1)) as [<-|N1];
      [|rewrite lookup_delete_ne in D1 by done; congruence].
    destruct (decide (victim = k2)) as [<-|N2];
      [done|rewrite lookup_delete_ne in D2 by done; congruence].
Qed.

Lemma Cache_Set_drops_at_most_one_witness :
  items cache_ab !! "b" = Some "2".
Proof.
  apply (proj1 (Cache_Set_drops_at_most_one 0 cache_ab "a" "3") "b" "2").
  - by vm_compute.
  - by vm_compute.
Defined.

(** X5.  A [Set] of a key that is not resident, in a cache that is full
    and not empty, leaves the resident count as it was: one entry goes
    and one comes. *)
Theorem Cache_Set_full_keeps_count (seed : nat) (c : Cache) (key value : string) :
  maxSize c ≤ len c →
  items c ≠ ∅ →
  items c !! key = None →
  len (Cache_Set seed c key value) = len c.
Proof.
  intros Hfull Hne Hnew. unfold len. rewrite Cache_Set_full by done.
  pose proof (evict_one_size seed _ Hne) as Hsize.
  rewrite map_size_insert_None; [lia|].
  destruct (evict_one_lookup seed (items c) key) as [-> | ->]; done.
Qed.

Lemma Cache_Set_full_keeps_count_witness :
  len (Cache_Set 1 cache_ab "c" "3") = len cache_ab.
Proof.
  apply Cache_Set_full_keeps_count.
  - by vm_compute.
  - intros H. apply (f_equal size) in H. by vm_compute in H.
  - by vm_compute.
Defined.

(** X6.  Whatever the capacity given to [NewCache], zero and negative
    ones included, the resident count after any calls is at most the
    larger of the capacity and one, and the capacity itself never
    changes. *)
Theorem calls_bound_any_capacity (maxSize0 : Z) (l : list CacheCall) :
  len (calls (NewCache maxSize0) l) ≤ Z.max maxSize0 1
  ∧ maxSize (calls (NewCache maxSize0) l) = maxSize0.
Proof.
  split.
  - pose proof (calls_bound (NewCache maxSize0) l) as H. simpl in H.
    apply H. unfold len; simpl. rewrite map_size_empty. lia.
  - by rewrite calls_maxSize.
Qed.

Section latest_value.
Implicit Types (c : Cache) (k v : string) (st : option string).

Lemma latest_from_sound k st c l :
  (∀ v, items c !! k = Some v → st = Some v) →
  ∀ v, items (calls c l) !! k = Some v → latest_from k st l = Some v.
Proof.
  revert c st. induction l as [|o l IH]; intros c st Hc v; [by apply Hc|].
  unfold calls, latest_from in *; simpl. apply IH.
  destruct o as [key|seed key value|key]; unfold call.
  - by rewrite Cache_Get_items.
  - case_bool_decide as Hk.
    + subst key. rewrite Cache_Set_lookup. by intros ? [= ->].
    + intros w Hw.
      destruct (Cache_Set_lookup_ne seed c key value k Hk) as [E|E];
        rewrite E in Hw; [done|by apply Hc].
  - unfold Cache_Delete; simpl. case_bool_decide as Hk.
    + subst key. by rewrite lookup_delete_eq.
    + rewrite lookup_delete_ne by done. apply Hc.
Qed.
End latest_value.

(** X7.  The cache never holds a stale or invented value: after any
    calls on a new cache, a resident key maps to the value of the last
    [Set] on it, and no [Delete] of it came after that [Set]. *)
Theorem resident_value_is_latest (maxSize0 : Z) (l : list CacheCall) (k v : string) :
  items (calls (NewCache maxSize0) l) !! k = Some v → latest k l = Some v.
Proof. apply latest_from_sound. intros w. simpl. by rewrite lookup_empty. Qed.

Lemma resident_value_is_latest_witness :
  latest "a" [CallSet 0 "a" "1"; CallSet 0 "b" "2"; CallSet 0 "a" "3"]
  = Some "3".
Proof.
  apply (resident_value_is_latest 2). by vm_compute.
Defined.

(** * Further properties of the request handlers *)

Section routing.
Implicit Types (s : Server) (r : Request) (key : string) (seed : nat).

Lemma strip_prefix_append (prefix rest : string) :
  strip_prefix prefix (prefix +:+ rest) = Some rest.
Proof.
  induction prefix as [|a prefix IH]; simpl; [done|].
  by rewrite bool_decide_eq_true_2.
Qed.

Lemma TrimPrefix_append (prefix rest : string) :
  TrimPrefix (prefix +:+ rest) prefix = rest.
Proof. unfold TrimPrefix. by rewrite strip_prefix_append. Qed.

(** The answers [handleGet] can give. *)
Lemma handleGet_response seed key s :
  (∃ val, items (cache s) !! key = Some val
          ∧ response (handleGet seed key s) = Write val)
  ∨ (items (cache s) !! key = None
     ∧ ((∃ v, (QueryRow (db s) key).1 = ScanOk v
              ∧ response (handleGet seed key s) = Write v)
        ∨ ((QueryRow (db s) key).1 = ErrNoRows
           ∧ response (handleGet seed key s)
             = Error "Key not found" StatusNotFound)
        ∨ ((QueryRow (db s) key).1 = ScanErr
           ∧ response (handleGet seed key s)
             = Error "Database error" StatusInternalServerError))).
Proof.
  destruct (items (cache s) !! key) as [val|] eqn:E.
  - left. exists val. by rewrite (handleGet_hit _ _ _ _ E).
  - right. split; [done|]. rewrite (handleGet_miss _ _ _ E). cbn zeta.
    destruct (QueryRow (db s) key).1 as [v| |]; eauto.
Qed.

Lemma handleGet_status seed key s :
  status (response (handleGet seed key s)) = StatusOK
  ∨ status (response (handleGet seed key s)) = StatusNotFound
  ∨ status (response (handleGet seed key s)) = StatusInternalServerError.
Proof.
  destruct (handleGet_response seed key s)
    as [(val & _ & ->)|(_ & [(v & _ & ->)|[(_ & ->)|(_ & ->)]])]; auto.
Qed.

Lemma handlePut_status seed r key s :
  status (response (handlePut seed r key s)) = StatusOK
  ∨ status (response (handlePut seed r key s)) = StatusInternalServerError.
Proof.
  rewrite handlePut_outcome. cbn zeta.
  destruct (ExecUpsert (db s) key (readValue r)).1; auto.
Qed.

Lemma handleDelete_status key s :
  status (response (handleDelete key s)) = StatusOK
  ∨ status (response (handleDelete key s)) = StatusInternalServerError.
Proof.
  rewrite handleDelete_outcome. cbn zeta.
  destruct (ExecDelete (db s) key).1; auto.
Qed.
End routing.

(** X8.  A request for the path [/kv/] followed by a key that is not
    empty is handled for exactly that key: by [handleGet] for [GET], by
    [handlePut] for [PUT] and by [handleDelete] for [DELETE]. *)
Theorem kvHandler_routes (seed : nat) (r : Request) (key : string) (s : Server) :
  Path r = "/kv/" +:+ key →
  key ≠ EmptyString →
  (Method r = "GET" → kvHandler seed r s = handleGet seed key s)
  ∧ (Method r = "PUT" → kvHandler seed r s = handlePut seed r key s)
  ∧ (Method r = "DELETE" → kvHandler seed r s = handleDelete key s).
Proof.
  intros Hpath Hkey. unfold kvHandler. cbn zeta.
  rewrite Hpath, TrimPrefix_append.
  rewrite (bool_decide_eq_false_2 _ Hkey).
  split; [|split]; intros ->; done.
Qed.

Lemma kvHandler_routes_witness :
  kvHandler 0 (PUT "c" "3") (server_ab [])
  = handlePut 0 (PUT "c" "3") "c" (server_ab []).
Proof.
  apply (proj1 (proj2 (kvHandler_routes 0 (PUT "c" "3") "c" (server_ab [])
                         eq_refl ltac:(done)))).
  done.
Defined.

(** X9.  [kvHandler] answers 400 exactly when the key left after
    trimming [/kv/] from the path is empty, and 405 exactly when the key
    is not empty and the method is none of [GET], [PUT] and [DELETE]; a
    request answered with 400 or 405 reaches neither the cache nor the
    store. *)
Theorem kvHandler_rejects (seed : nat) (r : Request) (s : Server) :
  let o := kvHandler seed r s in
  let key := TrimPrefix (Path r) "/kv/" in
  (status (response o) = StatusBadRequest ↔ key = EmptyString)
  ∧ (status (response o) = StatusMethodNotAllowed ↔
       key ≠ EmptyString
       ∧ Method r ≠ "GET" ∧ Method r ≠ "PUT" ∧ Method r ≠ "DELETE")
  ∧ (status (response o) = StatusBadRequest
     ∨ status (response o) = StatusMethodNotAllowed →
     server o = s ∧ events o = []).
Proof.
  intros o key. subst o. unfold kvHandler. cbn zeta. fold key.
  pose proof (handleGet_status seed key s) as HG.
  pose proof (handlePut_status seed r key s) as HP.
  pose proof (handleDelete_status key s) as HD.
  unfold StatusOK, StatusNotFound, StatusInternalServerError,
    StatusBadRequest, StatusMethodNotAllowed in *.
  repeat case_bool_decide;
    (split; [|split]); try (split; intros); try intros [?|?];
    try done; try (destruct_and?; congruence); try lia.
  all: try (repeat split; congruence).
Qed.

Lemma kvHandler_rejects_witness :
  server (kvHandler 0 (mkRequest "POST" "/kv/a" (bodyOf "1")) (server_ab []))
  = server_ab []
  ∧ events (kvHandler 0 (mkRequest "POST" "/kv/a" (bodyOf "1")) (server_ab []))
    = [].
Proof.
  apply (proj2 (proj2 (kvHandler_rejects 0
           (mkRequest "POST" "/kv/a" (bodyOf "1")) (server_ab [])))).
  right. by vm_compute.
Defined.

Section store_facts.
Implicit Types (s : Server) (d : DB) (r : Request) (k key v : string) (seed : nat).

Lemma QueryRow_ok d key v :
  (QueryRow d key).1 = ScanOk v → rows d !! key = Some v.
Proof.
  unfold QueryRow. destruct (next_call d) as [[|] rest]; simpl; [done|].
  destruct (rows d !! key); simpl; congruence.
Qed.

Lemma QueryRow_missing d key :
  rows d !! key = None →
  (QueryRow d key).1 = ErrNoRows ∨ (QueryRow d key).1 = ScanErr.
Proof.
  intros H. unfold QueryRow. destruct (next_call d) as [[|] rest]; simpl.
  - by right.
  - rewrite H. by left.
Qed.

Lemma ExecUpsert_rows d key value :
  rows (ExecUpsert d key value).2
  = match (ExecUpsert d key value).1 with
    | ExecOk => <[key := value]> (rows d)
    | ExecErr => rows d
    end.
Proof. unfold ExecUpsert. by destruct (next_call d) as [[|] rest]. Qed.

Lemma ExecDelete_rows d key :
  rows (ExecDelete d key).2
  = match (ExecDelete d key).1 with
    | ExecOk => delete key (rows d)
    | ExecErr => rows d
    end.
Proof. unfold ExecDelete. by destruct (next_call d) as [[|] rest]. Qed.

Lemma Cache_Set_lookup_other seed (c : Cache) key value k v :
  k ≠ key →
  items (Cache_Set seed c key value) !! k = Some v → items c !! k = Some v.
Proof.
  intros Hne H.
  destruct (Cache_Set_lookup_ne seed c key value k) as [E|E];
    [done|congruence|congruence].
Qed.

Lemma Cache_Set_lookup_none seed (c : Cache) key value k :
  k ≠ key →
  items c !! k = None → items (Cache_Set seed c key value) !! k = None.
Proof.
  intros Hne H.
  destruct (Cache_Set_lookup_ne seed c key value k) as [E|E];
    [done|done|congruence].
Qed.

(** Every handler leaves the cache as some sequence of cache calls
    would. *)
Lemma kvHandler_cache seed r s :
  ∃ l, cache (server (kvHandler seed r s)) = calls (cache s) l
       ∧ gets l = (if is_read r then 1 else 0).
Proof.
  unfold kvHandler, is_read. cbn zeta. set (key := TrimPrefix (Path r) "/kv/").
  destruct (bool_decide (key = EmptyString)); [by exists []|].
  destruct (bool_decide (Method r = "GET")); simpl negb; simpl andb.
  { destruct (items (cache s) !! key) as [val|] eqn:E.
    - rewrite (handleGet_hit _ _ _ _ E). by exists [CallGet key].
    - rewrite (handleGet_miss _ _ _ E). cbn zeta.
      destruct (QueryRow (db s) key).1 as [v| |].
      + by exists [CallGet key; CallSet seed key v].
      + by exists [CallGet key].
      + by exists [CallGet key]. }
  destruct (bool_decide (Method r = "PUT")).
  { rewrite handlePut_outcome. cbn zeta.
    destruct (ExecUpsert (db s) key (readValue r)).1.
    - by exists [CallSet seed key (readValue r)].
    - by exists []. }
  destruct (bool_decide (Method r = "DELETE")); [|by exists []].
  rewrite handleDelete_outcome. cbn zeta.
  destruct (ExecDelete (db s) key).1.
  - by exists [CallDelete key].
  - by exists [].
Qed.

Lemma handleGet_unknown seed key k s :
  unknown k s → unknown k (server (handleGet seed key s)).
Proof.
  intros [Hrow Hcache].
  destruct (items (cache s) !! key) as [val|] eqn:E.
  - rewrite (handleGet_hit _ _ _ _ E). unfold server, unknown; cbn.
    by rewrite Cache_Get_items.
  - rewrite (handleGet_miss _ _ _ E). cbn zeta.
    destruct (QueryRow (db s) key).1 as [v| |] eqn:Q;
      unfold server, unknown; cbn;
      rewrite QueryRow_rows, ?Cache_Get_items; try done.
    split; [done|].
    destruct (decide (k = key)) as [->|Hne].
    + apply QueryRow_ok in Q. congruence.
    + apply Cache_Set_lookup_none; [done|]. by rewrite Cache_Get_items.
Qed.

Lemma handlePut_unknown seed r key k s :
  key ≠ k → unknown k s → unknown k (server (handlePut seed r key s)).
Proof.
  intros Hne [Hrow Hcache]. rewrite handlePut_outcome. cbn zeta.
  destruct (ExecUpsert (db s) key (readValue r)).1;
    unfold server, unknown; cbn; rewrite ExecUpsert_rows_ne by done; [|done].
  split; [done|]. by apply Cache_Set_lookup_none.
Qed.

Lemma handleDelete_unknown key k s :
  unknown k s → unknown k (server (handleDelete key s)).
Proof.
  intros [Hrow Hcache]. rewrite handleDelete_outcome. cbn zeta.
  pose proof (ExecDelete_rows (db s) key) as E.
  destruct (ExecDelete (db s) key).1;
    unfold server, unknown; cbn; rewrite E; [|done].
  unfold Cache_Delete; simpl.
  destruct (decide (key = k)) as [->|Hne].
  - by rewrite !lookup_delete_eq.
  - by rewrite !lookup_delete_ne.
Qed.

Lemma kvHandler_unknown seed r k s :
  puts k r = false → unknown k s → unknown k (server (kvHandler seed r s)).
Proof.
  unfold puts, kvHandler. cbn zeta.
  set (key := TrimPrefix (Path r) "/kv/"). intros Hr Hs.
  destruct (bool_decide (key = EmptyString)); [exact Hs|].
  destruct (bool_decide (Method r = "GET")); [by apply handleGet_unknown|].
  destruct (bool_decide (Method r = "PUT")) eqn:Hput.
  - apply handlePut_unknown; [|done].
    intros E. by rewrite (bool_decide_eq_true_2 _ E) in Hr.
  - destruct (bool_decide (Method r = "DELETE")); [|exact Hs].
    by apply handleDelete_unknown.
Qed.

Lemma serve_unknown (reqs : list (nat * Request)) k s :
  Forall (λ sr, puts k sr.2 = false) reqs →
  unknown k s → unknown k (serve s reqs).
Proof.
  intros Hreqs. revert s.
  induction Hreqs as [|[seed r] reqs Hr _ IH]; intros s Hs; [done|].
  unfold serve in *; simpl. apply IH. by apply (kvHandler_unknown seed r).
Qed.

Lemma handleGet_of_unknown seed k s :
  unknown k s →
  ((QueryRow (db s) k).1 = ErrNoRows
   ∧ response (handleGet seed k s) = Error "Key not found" StatusNotFound)
  ∨ ((QueryRow (db s) k).1 = ScanErr
     ∧ response (handleGet seed k s)
       = Error "Database error" StatusInternalServerError).
Proof.
  intros [Hrow Hcache]. rewrite (handleGet_miss _ _ _ Hcache). cbn zeta.
  destruct (QueryRow_missing _ _ Hrow) as [-> | ->]; [by left|by right].
Qed.

Lemma handleDelete_makes_unknown k s :
  status (response (handleDelete k s)) = StatusOK →
  unknown k (server (handleDelete k s)).
Proof.
  rewrite handleDelete_outcome. cbn zeta.
  pose proof (ExecDelete_rows (db s) k) as E.
  destruct (ExecDelete (db s) k).1;
    unfold response, server, unknown; cbn; [|done].
  intros _. rewrite E. unfold Cache_Delete; simpl.
  by rewrite !lookup_delete_eq.
Qed.
End store_facts.

(** X10.  A key that neither the table nor the cache has stays unknown
    through any requests none of which is a [PUT] of it, and a read of it
    is answered with 404, or with 500 when the store query fails; it is
    never answered with a value. *)
Theorem unknown_key_not_found
    (s : Server) (k : string) (reqs : list (nat * Request)) (seed : nat) :
  unknown k s →
  Forall (λ sr, puts k sr.2 = false) reqs →
  let get := handleGet seed k (serve s reqs) in
  (response get = {| status := 404; body := "Key not found
" |}
   ∨ response get = {| status := 500; body := "Database error
" |})
  ∧ ((QueryRow (db (serve s reqs)) k).1 ≠ ScanErr →
     response get = {| status := 404; body := "Key not found
" |})
  ∧ unknown k (server get).
Proof.
  intros Hs Hreqs get.
  pose proof (serve_unknown reqs k s Hreqs Hs) as H2.
  destruct (handleGet_of_unknown seed k _ H2) as [[Q E]|[Q E]];
    fold get in E; rewrite E.
  - split; [by left|]. split; [done|]. by apply handleGet_unknown.
  - split; [by right|]. split; [done|]. by apply handleGet_unknown.
Qed.

Lemma unknown_key_not_found_witness :
  response (handleGet 0 "zzz"
              (serve (fresh 2 []) [(0%nat, PUT "a" "1"); (1%nat, GET "zzz");
                                   (0%nat, DELETE "a")]))
  = {| status := 404; body := "Key not found
" |}.
Proof.
  apply (proj1 (proj2 (unknown_key_not_found (fresh 2 []) "zzz"
           [(0%nat, PUT "a" "1"); (1%nat, GET "zzz"); (0%nat, DELETE "a")] 0
           ltac:(by vm_compute) ltac:(repeat constructor)))).
  by vm_compute.
Defined.

(** X11.  After a removal that succeeds, and any requests handled one
    after the other after it (each finished before the next starts, none
    of them overlapping the removal), none of which is a [PUT] of the
    key, a read of the key is answered with status 404 (or with status
    500 when the store query fails), also when the key was cached before
    the removal. *)
Theorem removed_key_not_found
    (s : Server) (k : string) (reqs : list (nat * Request)) (seed : nat) :
  status (response (handleDelete k s)) = StatusOK →
  Forall (λ sr, puts k sr.2 = false) reqs →
  let get := handleGet seed k (serve (server (handleDelete k s)) reqs) in
  (response get = {| status := 404; body := "Key not found
" |}
   ∨ response get = {| status := 500; body := "Database error
" |})
  ∧ ((QueryRow (db (serve (server (handleDelete k s)) reqs)) k).1 ≠ ScanErr →
     response get = {| status := 404; body := "Key not found
" |}).
Proof.
  intros Hok Hreqs get.
  pose proof (handleDelete_makes_unknown k s Hok) as H1.
  pose proof (serve_unknown reqs k _ Hreqs H1) as H2.
  destruct (handleGet_of_unknown seed k _ H2) as [[Q E]|[Q E]];
    fold get in E; rewrite E.
  - split; [by left|done].
  - split; [by right|done].
Qed.

Lemma removed_key_not_found_witness :
  response (handleGet 0 "a"
              (serve (server (handleDelete "a" (server_ab [])))
                 [(0%nat, GET "b"); (0%nat, GET "a")]))
  = {| status := 404; body := "Key not found
" |}.
Proof.
  apply (proj2 (removed_key_not_found (server_ab []) "a"
           [(0%nat, GET "b"); (0%nat, GET "a")] 0
           ltac:(by vm_compute) ltac:(repeat constructor))).
  by vm_compute.
Defined.

Section coherence.
Implicit Types (s : Server) (r : Request) (k key v : string) (seed : nat).

Lemma handleGet_coherent seed key s :
  coherent s → coherent (server (handleGet seed key s)).
Proof.
  intros Hs.
  destruct (items (cache s) !! key) as [val|] eqn:E.
  - rewrite (handleGet_hit _ _ _ _ E). unfold server, coherent; cbn.
    by rewrite Cache_Get_items.
  - rewrite (handleGet_miss _ _ _ E). cbn zeta.
    destruct (QueryRow (db s) key).1 as [v| |] eqn:Q;
      unfold server, coherent; cbn;
      rewrite QueryRow_rows, ?Cache_Get_items; try done.
    intros k w Hk. destruct (decide (k = key)) as [->|Hne].
    + rewrite Cache_Set_lookup in Hk. simplify_eq.
      by apply QueryRow_ok.
    + apply Hs. apply Cache_Set_lookup_other in Hk; [|done].
      by rewrite Cache_Get_items in Hk.
Qed.

Lemma handlePut_coherent seed r key s :
  coherent s → coherent (server (handlePut seed r key s)).
Proof.
  intros Hs. rewrite handlePut_outcome. cbn zeta.
  pose proof (ExecUpsert_rows (db s) key (readValue r)) as E.
  destruct (ExecUpsert (db s) key (readValue r)).1;
    unfold server, coherent; cbn; rewrite E; [|done].
  intros k w Hk. destruct (decide (k = key)) as [->|Hne].
  - rewrite Cache_Set_lookup in Hk. simplify_eq. apply lookup_insert_eq.
  - rewrite lookup_insert_ne by done. apply Hs.
    by apply Cache_Set_lookup_other in Hk.
Qed.

Lemma handleDelete_coherent key s :
  coherent s → coherent (server (handleDelete key s)).
Proof.
  intros Hs. rewrite handleDelete_outcome. cbn zeta.
  pose proof (ExecDelete_rows (db s) key) as E.
  destruct (ExecDelete (db s) key).1;
    unfold server, coherent; cbn; rewrite E; [|done].
  unfold Cache_Delete; simpl. intros k w Hk.
  destruct (decide (key = k)) as [->|Hne].
  - by rewrite lookup_delete_eq in Hk.
  - rewrite lookup_delete_ne in * by done. by apply Hs.
Qed.

Lemma kvHandler_coherent seed r s :
  coherent s → coherent (server (kvHandler seed r s)).
Proof.
  intros Hs. unfold kvHandler. cbn zeta.
  destruct (bool_decide (_ = EmptyString)); [exact Hs|].
  destruct (bool_decide (Method r = "GET")); [by apply handleGet_coherent|].
  destruct (bool_decide (Method r = "PUT")); [by apply handlePut_coherent|].
  destruct (bool_decide (Method r = "DELETE")); [|exact Hs].
  by apply handleDelete_coherent.
Qed.

Lemma serve_keeps_coherent (reqs : list (nat * Request)) s :
  coherent s → coherent (serve s reqs).
Proof.
  revert s. induction reqs as [|[seed r] reqs IH]; intros s Hs; [done|].
  unfold serve in *; simpl. apply IH. by apply kvHandler_coherent.
Qed.

Lemma fresh_coherent capacity outages : coherent (fresh capacity outages).
Proof. intros k v H. simpl in H. by rewrite lookup_empty in H. Qed.
End coherence.

(** X12.  The cache never leads or contradicts the table: if every
    cached entry is the entry of the table (as with the empty cache a
    server starts with), this is still so after any sequence of
    requests, whatever they are and whichever store calls fail. *)
Theorem serve_coherent (s : Server) (reqs : list (nat * Request)) :
  coherent s → coherent (serve s reqs).
Proof. apply serve_keeps_coherent. Qed.

Lemma serve_coherent_witness :
  coherent (serve (fresh 1 [false; true])
              [(0%nat, PUT "a" "1"); (0%nat, PUT "b" "2"); (0%nat, GET "a");
               (0%nat, DELETE "a")]).
Proof.
  apply serve_coherent. apply fresh_coherent.
Defined.

(** X13.  With a coherent cache, a read answered with 200 carries the
    value the table holds for the key, whether it was served from the
    cache or from the store. *)
Theorem read_answers_stored_value (seed : nat) (k : string) (s : Server) :
  coherent s →
  status (response (handleGet seed k s)) = StatusOK →
  rows (db s) !! k = Some (body (response (handleGet seed k s))).
Proof.
  intros Hs.
  destruct (handleGet_response seed k s)
    as [(val & Hc & ->)|(_ & [(v & Q & ->)|[(_ & ->)|(_ & ->)]])];
    simpl; try done; intros _.
  - by apply Hs.
  - by apply QueryRow_ok.
Qed.

Lemma read_answers_stored_value_witness :
  rows (db (server_ab [])) !! "a"
  = Some (body (response (handleGet 0 "a" (server_ab [])))).
Proof.
  apply read_answers_stored_value.
  - apply serve_keeps_coherent, fresh_coherent.
  - by vm_compute.
Defined.

Section server_cache.
Implicit Types (s : Server) (r : Request) (k key v : string) (seed : nat).

Lemma calls_app (c : Cache) (l1 l2 : list CacheCall) :
  calls (calls c l1) l2 = calls c (l1 ++ l2).
Proof. unfold calls. by rewrite foldl_app. Qed.

Lemma gets_app (l1 l2 : list CacheCall) : gets (l1 ++ l2) = gets l1 + gets l2.
Proof. unfold gets. rewrite List.filter_app, length_app. lia. Qed.

Lemma serve_cache (reqs : list (nat * Request)) s :
  ∃ l, cache (serve s reqs) = calls (cache s) l ∧ gets l = reads reqs.
Proof.
  revert s. induction reqs as [|[seed r] reqs IH]; intros s; [by exists []|].
  unfold serve in *; simpl foldl.
  destruct (IH (kvHandler seed r s).1.2) as (l2 & E2 & G2).
  destruct (kvHandler_cache seed r s) as (l1 & E1 & G1).
  exists (l1 ++ l2). rewrite E2. unfold server in E1.
  rewrite E1, calls_app, gets_app, G1, G2. split; [done|].
  unfold reads. simpl. destruct (is_read r); simpl length; lia.
Qed.

Lemma take_drop_bytes (n : Z) (b : string) :
  take_bytes n b +:+ drop_bytes n b = b.
Proof.
  revert n. induction b as [|a b IH]; intros n; simpl; [done|].
  case_bool_decide; [|done].
  change (String a (take_bytes (n - 1) b +:+ drop_bytes (n - 1) b)
          = String a b).
  by rewrite IH.
Qed.

Lemma append_assoc_bytes (a b c : string) :
  (a +:+ b) +:+ c = a +:+ (b +:+ c).
Proof.
  induction a as [|x a IH]; [done|].
  change (String x ((a +:+ b) +:+ c) = String x (a +:+ (b +:+ c))).
  by rewrite IH.
Qed.

Lemma append_empty_bytes (a : string) : a +:+ EmptyString = a.
Proof.
  induction a as [|x a IH]; [done|].
  change (String x (a +:+ EmptyString) = String x a). by rewrite IH.
Qed.
End server_cache.



(** X15.  A server whose cache was made by [NewCache] with a capacity of
    at least one (the program uses 1000) never has more cached entries
    than that, after any sequence of requests. *)
Theorem serve_within_capacity
    (d : DB) (capacity : Z) (reqs : list (nat * Request)) :
  1 ≤ capacity →
  len (cache (serve {| db := d; cache := NewCache capacity |} reqs)) ≤ capacity.
Proof.
  intros Hpos.
  destruct (serve_cache reqs {| db := d; cache := NewCache capacity |})
    as (l & -> & _). simpl.
  pose proof (calls_bound (NewCache capacity) l) as H.
  unfold len in *; simpl in H. rewrite map_size_empty in H. lia.
Qed.

Lemma serve_within_capacity_witness :
  len (cache (serve {| db := mkDB ∅ []; cache := NewCache 1000 |}
                [(0%nat, PUT "a" "1"); (0%nat, GET "b"); (0%nat, DELETE "a")]))
  ≤ 1000.
Proof. apply serve_within_capacity. lia. Defined.

(** X16.  The hit and miss counters of a server count the requests
    that reach [handleGet]: starting from a new cache, and as long as
    their number fits [int64], hits plus misses is the number of [GET]
    requests with a key that is not empty; requests answered with 400
    or 405, writes and removals count nothing. *)
Theorem serve_counts_reads
    (d : DB) (capacity : Z) (reqs : list (nat * Request)) :
  reads reqs ≤ int64_max →
  hits (cache (serve {| db := d; cache := NewCache capacity |} reqs))
  + misses (cache (serve {| db := d; cache := NewCache capacity |} reqs))
  = reads reqs.
Proof.
  intros Hfit.
  destruct (serve_cache reqs {| db := d; cache := NewCache capacity |})
    as (l & El & Gl).
  rewrite El. rewrite <- Gl in *. simpl.
  pose proof (gets_nonneg l).
  destruct (calls_counters_exact (NewCache capacity) l) as (_ & _ & E);
    simpl in *; lia.
Qed.

Lemma serve_counts_reads_witness :
  hits (cache (serve {| db := mkDB ∅ []; cache := NewCache 1000 |}
                 [(0%nat, PUT "a" "1"); (0%nat, GET "a"); (0%nat, GET "b");
                  (0%nat, GET ""); (0%nat, DELETE "a")]))
  + misses (cache (serve {| db := mkDB ∅ []; cache := NewCache 1000 |}
                     [(0%nat, PUT "a" "1"); (0%nat, GET "a"); (0%nat, GET "b");
                      (0%nat, GET ""); (0%nat, DELETE "a")]))
  = reads [(0%nat, PUT "a" "1"); (0%nat, GET "a"); (0%nat, GET "b");
           (0%nat, GET ""); (0%nat, DELETE "a")].
Proof. apply serve_counts_reads. by vm_compute. Defined.

(** X17.  A payload that arrives in one piece of at most 1048576 bytes
    is stored whole: when the write is answered with 200, the table
    holds the payload for the key and a read that follows returns it. *)
Theorem PUT_then_GET_round_trip
    (seed seed' : nat) (r : Request) (k v : string) (s : Server) :
  chunks (Body r) = [v] →
  Z.of_nat (String.length v) ≤ bufLen →
  status (response (handlePut seed r k s)) = StatusOK →
  payload (Body r) = v
  ∧ rows (db (server (handlePut seed r k s))) !! k = Some v
  ∧ response (handleGet seed' k (server (handlePut seed r k s))) = {| status := 200; body := v |}.
Proof.
  intros Hbody Hlen Hok.
  assert (readValue r = v) as Hv.
  { rewrite (readValue_first_piece _ _ _ Hbody). by apply take_bytes_all. }
  destruct (handlePut_establishes seed r k s Hok) as [[Hrow _] Hcached].
  rewrite Hv in *. split; [|split; [done|]].
  - unfold payload. rewrite Hbody. simpl. apply append_empty_bytes.
  - by rewrite (handleGet_hit _ _ _ _ Hcached).
Qed.

Lemma PUT_then_GET_round_trip_witness :
  payload (Body (PUT "c" "some-data-payload")) = "some-data-payload"
  ∧ rows (db (server (handlePut 0 (PUT "c" "some-data-payload") "c"
                        (server_ab [])))) !! "c"
    = Some "some-data-payload"
  ∧ response (handleGet 0 "c"
                (server (handlePut 0 (PUT "c" "some-data-payload") "c"
                           (server_ab []))))
    = {| status := 200; body := "some-data-payload" |}.
Proof.
  apply PUT_then_GET_round_trip.
  - done.
  - by vm_compute.
  - by vm_compute.
Defined.

(** X18.  The value [handlePut] stores is always a prefix of the payload
    and never longer than 1048576 bytes. *)
Theorem readValue_is_bounded_prefix (r : Request) :
  Z.of_nat (String.length (readValue r)) ≤ bufLen
  ∧ ∃ rest, payload (Body r) = readValue r +:+ rest.
Proof.
  destruct (chunks (Body r)) as [|piece more] eqn:E.
  - rewrite (readValue_read_error _ E). split; [done|].
    exists EmptyString. unfold payload. by rewrite E.
  - rewrite (readValue_first_piece _ _ _ E). split.
    + rewrite take_bytes_length. assert (0 < bufLen) by done. lia.
    + exists (drop_bytes bufLen piece +:+ foldr String.append EmptyString more).
      unfold payload. rewrite E. simpl.
      by rewrite <- append_assoc_bytes, take_drop_bytes.
Qed.


(** * Properties of the load generator's totals *)

Section totals.
Implicit Types (t : Totals) (res : Result) (results : list Result).

Lemma errors_cons res results :
  errors (res :: results) = (if isError res then 1 else 0) + errors results.
Proof. unfold errors. simpl. destruct (isError res); simpl; lia. Qed.

Lemma errors_bounds results : 0 ≤ errors results ≤ Z.of_nat (length results).
Proof.
  unfold errors. pose proof (List.filter_length_le isError results). lia.
Qed.

Lemma tally_counts results t :
  0 ≤ totalErrors t ≤ totalRequests t →
  totalRequests t + Z.of_nat (length results) ≤ int64_max →
  totalRequests (foldl tally t results)
  = totalRequests t + Z.of_nat (length results)
  ∧ totalErrors (foldl tally t results) = totalErrors t + errors results.
Proof.
  revert t. induction results as [|res results IH]; intros t Ht Hfit.
  - unfold errors; simpl. lia.
  - simpl foldl. rewrite errors_cons.
    pose proof (errors_bounds results).
    assert (totalRequests (tally t res) = totalRequests t + 1) as Hn.
    { simpl. apply wrap64_small. simpl length in Hfit. int64_lia. }
    assert (totalErrors (tally t res)
            = totalErrors t + (if isError res then 1 else 0)) as He.
    { simpl. destruct (isError res); [|lia].
      apply wrap64_small. simpl length in Hfit. int64_lia. }
    destruct (IH (tally t res)) as [E1 E2].
    + rewrite Hn, He. destruct (isError res); lia.
    + rewrite Hn. simpl length in Hfit. lia.
    + rewrite E1, E2, Hn, He. simpl length. lia.
Qed.

Lemma tally_time results t T :
  Forall (λ res, 0 ≤ responseTime res ≤ T) results →
  0 ≤ totalResponseTime t →
  totalResponseTime t + Z.of_nat (length results) * T ≤ int64_max →
  0 ≤ totalResponseTime (foldl tally t results)
  ≤ totalResponseTime t + Z.of_nat (length results) * T.
Proof.
  intros Hall. revert t.
  induction Hall as [|res results Hres _ IH]; intros t Ht Hfit.
  - simpl. lia.
  - simpl foldl. simpl length in *.
    rewrite Nat2Z.inj_succ, Z.mul_succ_l in *.
    assert (0 ≤ Z.of_nat (length results) * T)
      by (apply Z.mul_nonneg_nonneg; lia).
    assert (totalResponseTime (tally t res)
            = totalResponseTime t + responseTime res) as E.
    { simpl. apply wrap64_small. int64_lia. }
    specialize (IH (tally t res)). rewrite E in IH. lia.
Qed.
End totals.

(** X19.  As long as the number of results fits [int64], the totals
    count every result once, the failures are the results flagged as
    errors, and the successful requests are all the others. *)
Theorem collect_counts (results : list Result) :
  Z.of_nat (length results) ≤ int64_max →
  totalRequests (collect results) = Z.of_nat (length results)
  ∧ totalErrors (collect results)
    = Z.of_nat (length (List.filter isError results))
  ∧ successfulRequests (collect results)
    = Z.of_nat (length (List.filter (λ res, negb (isError res)) results)).
Proof.
  intros Hfit. unfold collect.
  destruct (tally_counts results
              {| totalRequests := 0; totalErrors := 0; totalResponseTime := 0 |})
    as [E1 E2]; simpl; [lia|lia|].
  simpl in E1, E2. unfold successfulRequests. rewrite E1, E2.
  split; [done|]. split; [done|].
  pose proof (List.filter_length isError results) as Hsplit.
  pose proof (errors_bounds results) as Hb. unfold errors in *.
  rewrite wrap64_small by int64_lia. lia.
Qed.

Lemma collect_counts_witness :
  totalRequests (collect [mkResult 5 false; mkResult 7 true; mkResult 0 true])
  = 3
  ∧ totalErrors (collect [mkResult 5 false; mkResult 7 true; mkResult 0 true])
    = 2
  ∧ successfulRequests
      (collect [mkResult 5 false; mkResult 7 true; mkResult 0 true])
    = 1.
Proof.
  apply (collect_counts [mkResult 5 false; mkResult 7 true; mkResult 0 true]).
  by vm_compute.
Defined.

(** X20.  The average response time is zero when no result arrived (no
    division is made), and when every response time lies between zero
    and [T] nanoseconds, and their number and sum fit [int64], the
    average lies between zero and [T] expressed in milliseconds. *)
Theorem avgResponseTimeMs_bounds (results : list Result) (T : Z) :
  Forall (λ res, 0 ≤ responseTime res ≤ T) results →
  Z.of_nat (length results) ≤ int64_max →
  Z.of_nat (length results) * T ≤ int64_max →
  0 ≤ T →
  avgResponseTimeMs (collect []) = 0
  ∧ 0 ≤ avgResponseTimeMs (collect results) ≤ T ÷ 1000000.
Proof.
  intros Hall Hlen Hfit HT. split; [done|].
  unfold avgResponseTimeMs. case_bool_decide as Hn.
  - destruct (tally_counts results
                {| totalRequests := 0; totalErrors := 0;
                   totalResponseTime := 0 |}) as [E1 _]; simpl; [lia|lia|].
    pose proof (tally_time results
                  {| totalRequests := 0; totalErrors := 0;
                     totalResponseTime := 0 |} T Hall) as Hsum.
    simpl in Hsum, E1. unfold collect in *. rewrite E1 in *.
    set (sum := totalResponseTime (foldl tally _ results)) in *.
    set (n := Z.of_nat (length results)) in *.
    assert (0 ≤ sum ≤ n * T) as Hs by lia.
    replace (0 + n) with n in * by lia.
    rewrite (Z.quot_div_nonneg sum n) by lia.
    assert (0 ≤ sum / n) by (apply Z.div_pos; lia).
    assert (sum / n ≤ T) by (apply Z.div_le_upper_bound; lia).
    rewrite !Z.quot_div_nonneg by lia.
    split.
    + apply Z.div_pos; lia.
    + apply Z.div_le_mono; lia.
  - split; [done|]. apply Z.quot_pos; lia.
Qed.

Lemma avgResponseTimeMs_bounds_witness :
  avgResponseTimeMs (collect []) = 0
  ∧ 0 ≤ avgResponseTimeMs
          (collect [mkResult 3000000 false; mkResult 9000000 true])
    ≤ 9000000 ÷ 1000000.
Proof.
  apply avgResponseTimeMs_bounds.
  - repeat constructor; simpl; lia.
  - by vm_compute.
  - by vm_compute.
  - lia.
Defined.
